(** * Code Duel backend: the battle engine of [server.js]

    A shallow embedding of [GameEngine] (createNewGame, processActions,
    executeAction, getGameState) and of the route
    [POST /api/game/:gameId/actions], followed by the properties of one
    resolved round.

    JavaScript numbers are modelled as [Z]: every number the engine
    handles starts as an integer literal (100, 3, 5, 15, 25, 1, 2) and is
    only combined by [+], [-], [Math.max], [Math.min] and
    [Math.floor(_ * 0.5)], so it stays an integer far below 2^53.
    Objects mutated in place (the game, its two players, the two halves of
    the battle result) are passed explicitly and returned updated. *)

From Stdlib Require Import ZArith Lia.
From stdpp Require Import base gmap strings list pretty.

Open Scope string_scope.
Open Scope Z_scope.

(** ** Values that arrive in a request body *)

(** A JSON value as [express.json()] hands it to the route. Numbers are
    kept as integers (a fractional number behaves like any non-zero one
    here); arrays and objects are one opaque case, they are truthy and
    equal to no string. [JUndefined] is an absent key. *)
Inductive JsValue : Type :=
  | JUndefined
  | JNull
  | JBool (b : bool)
  | JNum (n : Z)
  | JStr (s : string)
  | JObject.

(** [v === 'lit'] for a string literal, as used by [switch] and by
    [Array.prototype.includes] on an array of strings. *)
Definition strictEq (v : JsValue) (lit : string) : bool :=
  match v with
  | JStr s => String.eqb s lit
  | _ => false
  end.

(** [!v] is [negb (truthy v)]. *)
Definition truthy (v : JsValue) : bool :=
  match v with
  | JUndefined | JNull => false
  | JBool b => b
  | JNum n => negb (n =? 0)
  | JStr s => negb (String.eqb s "")
  | JObject => true
  end.

Fixpoint includes (l : list string) (v : JsValue) : bool :=
  match l with
  | [] => false
  | x :: l' => strictEq v x || includes l' v
  end.

(** ** Data model *)

Record Player : Type := mkPlayer {
  p_id : string;
  p_name : string;
  hp : Z;
  maxHp : Z;
  energy : Z;
  maxEnergy : Z;
  charged : bool;
  p_status : string
}.

(** One half of [battleResult]. [statusChange] starts as [null]
    ([None]); [defending] is [Some b] until [delete] removes the key. *)
Record Result : Type := mkResult {
  damage : Z;
  energyChange : Z;
  statusChange : option string;
  defending : option bool
}.

Record BattleResult : Type := mkBattleResult {
  br_player1 : Result;
  br_player2 : Result;
  messages : list string
}.

Record LogEntry : Type := mkLogEntry {
  le_round : Z;
  le_actions : JsValue * JsValue;
  le_results : BattleResult;
  le_finalHp : Z * Z
}.

(** [winner] is [null] ([None]) or one of 'player1', 'player2', 'tie';
    [gameStatus] is 'active' or 'finished'. *)
Record Game : Type := mkGame {
  g_id : string;
  player1 : Player;
  player2 : Player;
  currentTurn : string;
  round : Z;
  gameStatus : string;
  winner : option string;
  lastActions : JsValue * JsValue;
  battleLog : list LogEntry
}.

(** Field assignments. *)
Definition set_charged (b : bool) (p : Player) : Player :=
  mkPlayer (p_id p) (p_name p) (hp p) (maxHp p) (energy p) (maxEnergy p) b
           (p_status p).
Definition set_hp (h : Z) (p : Player) : Player :=
  mkPlayer (p_id p) (p_name p) h (maxHp p) (energy p) (maxEnergy p)
           (charged p) (p_status p).
Definition set_energy (e : Z) (p : Player) : Player :=
  mkPlayer (p_id p) (p_name p) (hp p) (maxHp p) e (maxEnergy p)
           (charged p) (p_status p).

Definition set_damage (d : Z) (r : Result) : Result :=
  mkResult d (energyChange r) (statusChange r) (defending r).
Definition set_energyChange (e : Z) (r : Result) : Result :=
  mkResult (damage r) e (statusChange r) (defending r).
Definition set_statusChange (s : string) (r : Result) : Result :=
  mkResult (damage r) (energyChange r) (Some s) (defending r).
Definition set_defending (b : bool) (r : Result) : Result :=
  mkResult (damage r) (energyChange r) (statusChange r) (Some b).
Definition delete_defending (r : Result) : Result :=
  mkResult (damage r) (energyChange r) (statusChange r) None.

(** ** The engine *)

Module GameEngine.

(** The object literal of [createNewGame]. *)
Definition newGame (gameId : string) : Game :=
  {| g_id := gameId;
     player1 := {| p_id := "player1"; p_name := "Player 1";
                   hp := 100; maxHp := 100; energy := 3; maxEnergy := 5;
                   charged := false; p_status := "active" |};
     player2 := {| p_id := "player2"; p_name := "Player 2";
                   hp := 100; maxHp := 100; energy := 3; maxEnergy := 5;
                   charged := false; p_status := "active" |};
     currentTurn := "player1";
     round := 1;
     gameStatus := "active";
     winner := None;
     lastActions := (JNull, JNull);
     battleLog := [] |}.

(** [createNewGame]: builds the game, registers it under its id. *)
Definition createNewGame (games : gmap string Game) (gameId : string)
  : gmap string Game * Game :=
  let game := newGame gameId in
  (<[gameId := game]> games, game).

(** [executeAction]: the four objects it may touch go in and come out.
    [defender] and [attackerName] are parameters the body never uses. *)
Definition executeAction (attacker defender : Player) (action : JsValue)
    (attackerResult defenderResult : Result) (attackerName : string)
  : Player * Player * Result * Result :=
  if strictEq action "attack" then
    if energy attacker >=? 1 then
      let damage := if charged attacker then 25 else 15 in
      let attackerResult := set_energyChange (-1) attackerResult in
      let defenderResult := set_damage damage defenderResult in
      let attackerResult :=
        set_statusChange
          (if charged attacker then "Charged attack!" else "Normal attack!")
          attackerResult in
      let attacker := set_charged false attacker in
      (attacker, defender, attackerResult, defenderResult)
    else
      (attacker, defender,
       set_statusChange "Not enough energy!" attackerResult, defenderResult)
  else if strictEq action "defend" then
    let attackerResult := set_energyChange 1 attackerResult in
    let attackerResult := set_statusChange "Defending!" attackerResult in
    let attackerResult := set_defending true attackerResult in
    (attacker, defender, attackerResult, defenderResult)
  else if strictEq action "charge" then
    if energy attacker >=? 2 then
      let attacker := set_charged true attacker in
      let attackerResult := set_energyChange (-2) attackerResult in
      let attackerResult :=
        set_statusChange "Charged up for next attack!" attackerResult in
      (attacker, defender, attackerResult, defenderResult)
    else
      (attacker, defender,
       set_statusChange "Not enough energy to charge!" attackerResult,
       defenderResult)
  else
    (attacker, defender,
     set_statusChange "Invalid action!" attackerResult, defenderResult).

(** The four objects of a round while it is being resolved. *)
Record Staged : Type := mkStaged {
  st_p1 : Player;
  st_p2 : Player;
  st_r1 : Result;
  st_r2 : Result
}.

Definition freshResult : Result :=
  {| damage := 0; energyChange := 0; statusChange := None;
     defending := Some false |}.

(** Lines 72-80 of [processActions]: the fresh battle result and the two
    calls of [executeAction], player 1 first. *)
Definition executeActions (p1 p2 : Player)
    (player1Action player2Action : JsValue) : Staged :=
  let '(p1, p2, r1, r2) :=
    executeAction p1 p2 player1Action freshResult freshResult "Player 1" in
  let '(p2, p1, r2, r1) :=
    executeAction p2 p1 player2Action r2 r1 "Player 2" in
  mkStaged p1 p2 r1 r2.

(** [if (r.defending && r.damage > 0) r.damage = Math.floor(r.damage * 0.5)] *)
Definition defenseReduction (r : Result) : Result :=
  if bool_decide (defending r = Some true) && (damage r >? 0)
  then set_damage (damage r `div` 2) r
  else r.

(** Lines 82-130 of [processActions]: defence reduction, application of
    the results, log entry, end of game, round counter. *)
Definition applyResults (game : Game) (player1Action player2Action : JsValue)
    (s : Staged) : Game * BattleResult :=
  let r1 := defenseReduction (st_r1 s) in
  let r2 := defenseReduction (st_r2 s) in
  let p1 := set_hp (Z.max 0 (hp (st_p1 s) - damage r1)) (st_p1 s) in
  let p2 := set_hp (Z.max 0 (hp (st_p2 s) - damage r2)) (st_p2 s) in
  let p1 :=
    set_energy (Z.min (maxEnergy p1) (Z.max 0 (energy p1 + energyChange r1)))
               p1 in
  let p2 :=
    set_energy (Z.min (maxEnergy p2) (Z.max 0 (energy p2 + energyChange r2)))
               p2 in
  let battleResult :=
    {| br_player1 := delete_defending r1;
       br_player2 := delete_defending r2;
       messages := [] |} in
  let logEntry :=
    {| le_round := round game;
       le_actions := (player1Action, player2Action);
       le_results := battleResult;
       le_finalHp := (hp p1, hp p2) |} in
  let ended := (hp p1 <=? 0) || (hp p2 <=? 0) in
  let gameStatus' := if ended then "finished" else gameStatus game in
  let winner' :=
    if ended then
      if (hp p1 <=? 0) && (hp p2 <=? 0) then Some "tie"
      else if hp p1 <=? 0 then Some "player2"
      else Some "player1"
    else winner game in
  ({| g_id := g_id game;
      player1 := p1;
      player2 := p2;
      currentTurn := currentTurn game;
      round := round game + 1;
      gameStatus := gameStatus';
      winner := winner';
      lastActions := (player1Action, player2Action);
      battleLog := battleLog game ++ [logEntry] |},
   battleResult).

Definition processActions (game : Game) (player1Action player2Action : JsValue)
  : Game * BattleResult :=
  applyResults game player1Action player2Action
    (executeActions (player1 game) (player2 game) player1Action player2Action).

End GameEngine.

Module GameEngineView.
Import GameEngine.

(** What [getGameState] sends back. [players] and [lastActions] are the
    game's own objects. *)
Record GameView : Type := mkGameView {
  v_id : string;
  v_players : Player * Player;
  v_currentTurn : string;
  v_round : Z;
  v_gameStatus : string;
  v_winner : option string;
  v_lastActions : JsValue * JsValue;
  recentBattleLog : list LogEntry
}.

(** [arr.slice(-n)]: the last [n] elements, all of them when there are
    fewer. *)
Definition slice_last {A : Type} (n : nat) (arr : list A) : list A :=
  drop (length arr - n)%nat arr.

Definition getGameState (game : Game) : GameView :=
  {| v_id := g_id game;
     v_players := (player1 game, player2 game);
     v_currentTurn := currentTurn game;
     v_round := round game;
     v_gameStatus := gameStatus game;
     v_winner := winner game;
     v_lastActions := lastActions game;
     recentBattleLog := slice_last 3 (battleLog game) |}.

End GameEngineView.

(** ** The route [POST /api/game/:gameId/actions] *)

Module Routes.
Import GameEngine GameEngineView.

(** The two keys read from a parsed [req.body] (an object, or an array,
    which has neither key); an absent key is [JUndefined]. The route is
    given [Some] of this record when the body parser set [req.body], and
    [None] when it left [req.body] undefined, as a parser may do for a
    request without a JSON body. *)
Record ActionsBody : Type := mkActionsBody {
  player1Action : JsValue;
  player2Action : JsValue
}.

(** The JSON answers of the route: [success: false] with an [error]
    text (and the echoed [received] pair when the route sends it; the
    further fields [bodyKeys], [body] and [details] are left out), or
    [success: true] with the game view and the battle result. *)
Inductive Json : Type :=
  | Failure (error : string) (received : option (JsValue * JsValue))
  | Success (game : GameView) (battleResult : BattleResult).

Record Response : Type := mkResponse {
  res_status : Z;
  res_json : Json
}.

Definition validActions : list string := ["attack"; "defend"; "charge"].

(** The [try] block of the handler, on the store [games] it closes over:
    [Some] of the store and the answer it sends, or [None] when it
    throws. The one statement that can throw is the destructuring
    [const { player1Action, player2Action } = req.body], a [TypeError]
    on an undefined [req.body]; it comes after the two checks on the game
    and before anything is written. *)
Definition actionsTry (games : gmap string Game) (gameId : string)
    (body : option ActionsBody) : option (gmap string Game * Response) :=
  match games !! gameId with
  | None => Some (games, mkResponse 404 (Failure "Game not found" None))
  | Some game =>
    if negb (String.eqb (gameStatus game) "active") then
      Some (games, mkResponse 400 (Failure "Game is not active" None))
    else
      match body with
      | None => None
      | Some body =>
        let player1Action := player1Action body in
        let player2Action := player2Action body in
        if negb (truthy player1Action) || negb (truthy player2Action) then
          Some (games,
                mkResponse 400
                  (Failure "Both player actions are required"
                           (Some (player1Action, player2Action))))
        else if negb (includes validActions player1Action)
                || negb (includes validActions player2Action) then
          Some (games,
                mkResponse 400
                  (Failure
                     "Invalid action. Must be: attack, defend, or charge"
                     (Some (player1Action, player2Action))))
        else
          let '(game', battleResult) :=
            processActions game player1Action player2Action in
          Some (<[gameId := game']> games,
                mkResponse 200 (Success (getGameState game') battleResult))
      end
  end.

(** The handler: the [try] block, and the [catch] branch answering 500
    when it threw. *)
Definition postActions (games : gmap string Game) (gameId : string)
    (body : option ActionsBody) : gmap string Game * Response :=
  match actionsTry games gameId body with
  | Some sent => sent
  | None => (games, mkResponse 500 (Failure "Internal server error" None))
  end.

End Routes.

(** ** Vocabulary of the statements *)

Import GameEngine GameEngineView Routes.

(** The two fixed player slots. *)
Inductive Slot : Type := Slot1 | Slot2.

Definition opponent (s : Slot) : Slot :=
  match s with Slot1 => Slot2 | Slot2 => Slot1 end.

Definition playerOf (s : Slot) (g : Game) : Player :=
  match s with Slot1 => player1 g | Slot2 => player2 g end.

Definition actionOf (s : Slot) (a1 a2 : JsValue) : JsValue :=
  match s with Slot1 => a1 | Slot2 => a2 end.

Definition resultOf (s : Slot) (br : BattleResult) : Result :=
  match s with Slot1 => br_player1 br | Slot2 => br_player2 br end.

(** The half of the battle result of slot [s] after both calls of
    [executeAction] and before the defence reduction: its [damage] is the
    damage staged against [s]. *)
Definition stagedOf (s : Slot) (st : Staged) : Result :=
  match s with Slot1 => st_r1 st | Slot2 => st_r2 st end.

(** An action the route accepts. *)
Definition validAction (a : JsValue) : Prop := includes validActions a = true.

(** The invariant of the data model. *)
Definition player_inv (p : Player) : Prop :=
  0 <= hp p <= maxHp p /\ 0 <= energy p <= maxEnergy p.

Definition game_inv (g : Game) : Prop :=
  player_inv (player1 g) /\ player_inv (player2 g).

(** The games the engine can ever hold: a new game, then any number of
    resolved rounds. *)
Inductive reachable : Game -> Prop :=
  | reachable_new (gameId : string) : reachable (newGame gameId)
  | reachable_round (game : Game) (a1 a2 : JsValue) :
      reachable game -> reachable (processActions game a1 a2).1.

(** Playing a list of rounds from a game. *)
Definition play (g : Game) (rounds : list (JsValue * JsValue)) : Game :=
  fold_left (fun g r => (processActions g r.1 r.2).1) rounds g.

Definition ATTACK : JsValue := JStr "attack".
Definition DEFEND : JsValue := JStr "defend".
Definition CHARGE : JsValue := JStr "charge".

(** The second order of resolution, for comparison with the code's:
    player 2's action is executed before player 1's. *)
Definition executeActions_swapped (p1 p2 : Player)
    (player1Action player2Action : JsValue) : Staged :=
  let '(p2, p1, r2, r1) :=
    executeAction p2 p1 player2Action freshResult freshResult "Player 2" in
  let '(p1, p2, r1, r2) :=
    executeAction p1 p2 player1Action r1 r2 "Player 1" in
  mkStaged p1 p2 r1 r2.

Definition processActions_swapped (game : Game)
    (player1Action player2Action : JsValue) : Game * BattleResult :=
  applyResults game player1Action player2Action
    (executeActions_swapped (player1 game) (player2 game)
                            player1Action player2Action).

(** ** What one action does, read off [executeAction]

    The functions below restate the branches of [executeAction] one
    field at a time; [executeActions_summary] proves that the two calls of
    [processActions] compute exactly these. *)

Definition energyDelta (p : Player) (a : JsValue) : Z :=
  if strictEq a "attack" then (if energy p >=? 1 then -1 else 0)
  else if strictEq a "defend" then 1
  else if strictEq a "charge" then (if energy p >=? 2 then -2 else 0)
  else 0.

Definition damageDealt (p : Player) (a : JsValue) : Z :=
  if strictEq a "attack" && (energy p >=? 1)
  then (if charged p then 25 else 15)
  else 0.

Definition chargedAfter (p : Player) (a : JsValue) : bool :=
  if strictEq a "attack" then (if energy p >=? 1 then false else charged p)
  else if strictEq a "defend" then charged p
  else if strictEq a "charge" then (if energy p >=? 2 then true else charged p)
  else charged p.

Definition messageOf (p : Player) (a : JsValue) : string :=
  if strictEq a "attack" then
    if energy p >=? 1
    then (if charged p then "Charged attack!" else "Normal attack!")
    else "Not enough energy!"
  else if strictEq a "defend" then "Defending!"
  else if strictEq a "charge" then
    if energy p >=? 2 then "Charged up for next attack!"
    else "Not enough energy to charge!"
  else "Invalid action!".

Definition isDefend (a : JsValue) : bool :=
  negb (strictEq a "attack") && strictEq a "defend".

(** The staged result of the player [me] who played [a] while the
    opponent [opp] played [b]. *)
Definition stagedResult (me opp : Player) (a b : JsValue) : Result :=
  {| damage := damageDealt opp b;
     energyChange := energyDelta me a;
     statusChange := Some (messageOf me a);
     defending := Some (isDefend a) |}.

Definition stagedSummary (p1 p2 : Player) (a1 a2 : JsValue) : Staged :=
  {| st_p1 := set_charged (chargedAfter p1 a1) p1;
     st_p2 := set_charged (chargedAfter p2 a2) p2;
     st_r1 := stagedResult p1 p2 a1 a2;
     st_r2 := stagedResult p2 p1 a2 a1 |}.

(** ** Games and answers used in the statements *)

(** A game one attack away from its end: player 1 attacks whenever it has
    energy and defends to regain it, player 2 only ever tries to charge.
    After these ten rounds player 2 is left with 10 HP and player 1 with
    1 energy. *)
Definition lethal_game : Game :=
  play (newGame "game_1")
    [ (ATTACK, CHARGE); (ATTACK, CHARGE); (ATTACK, CHARGE);
      (DEFEND, CHARGE); (ATTACK, CHARGE);
      (DEFEND, CHARGE); (ATTACK, CHARGE);
      (DEFEND, CHARGE); (ATTACK, CHARGE);
      (DEFEND, CHARGE) ].

(** The rule for the round counter in the words of the specification:
    plus one when both players survive the round, unchanged when the
    round ends the game. *)
Definition round_rule (g : Game) (a1 a2 : JsValue) : Prop :=
  let g' := (processActions g a1 a2).1 in
  (0 < hp (player1 g') /\ 0 < hp (player2 g') -> round g' = round g + 1)
  /\ (hp (player1 g') <= 0 \/ hp (player2 g') <= 0 -> round g' = round g).

(** The error answers of the route. *)
Definition NotFound : Response :=
  mkResponse 404 (Failure "Game not found" None).

Definition GameNotActive : Response :=
  mkResponse 400 (Failure "Game is not active" None).

Definition InternalFault : Response :=
  mkResponse 500 (Failure "Internal server error" None).

(** The two answers to a missing or out-of-enum action. *)
Definition InvalidInput (body : ActionsBody) (r : Response) : Prop :=
  r = mkResponse 400
        (Failure "Both player actions are required"
                 (Some (player1Action body, player2Action body)))
  \/ r = mkResponse 400
           (Failure "Invalid action. Must be: attack, defend, or charge"
                    (Some (player1Action body, player2Action body))).

(** A store holding one new game and one finished game. *)
Definition sample_store : gmap string Game :=
  <["game_2" := (processActions lethal_game ATTACK CHARGE).1]>
    (createNewGame ∅ "game_1").1.

(** ** The other routes *)

Module GameRoutes.
Import GameEngine GameEngineView.

(** ['game_' + Date.now()]: [Date.now()] is a non-negative integer of
    milliseconds, far below 10^21, so its string is its decimal digits. *)
Definition newGameId (now : N) : string := "game_" +:+ pretty now.

(** The JSON answers of the routes that send one game. *)
Inductive GameJson : Type :=
  | GameFailure (error : string)
  | GameSuccess (game : GameView).

Record GameResponse : Type := mkGameResponse {
  gres_status : Z;
  gres_json : GameJson
}.

(** [POST /api/game/create], at the time [now] read from the clock.
    Nothing in its [try] block throws. *)
Definition postCreate (games : gmap string Game) (now : N)
  : gmap string Game * GameResponse :=
  let gameId := newGameId now in
  let '(games', game) := createNewGame games gameId in
  (games', mkGameResponse 200 (GameSuccess (getGameState game))).

(** [GET /api/game/:gameId]. *)
Definition getGame (games : gmap string Game) (gameId : string)
  : GameResponse :=
  match games !! gameId with
  | None => mkGameResponse 404 (GameFailure "Game not found")
  | Some game => mkGameResponse 200 (GameSuccess (getGameState game))
  end.

(** One element of the list sent by [GET /api/games]. *)
Record GameSummary : Type := mkGameSummary {
  s_id : string;
  s_round : Z;
  s_gameStatus : string;
  s_winner : option string
}.

Definition summaryOf (game : Game) : GameSummary :=
  {| s_id := g_id game;
     s_round := round game;
     s_gameStatus := gameStatus game;
     s_winner := winner game |}.

(** [GET /api/games]: one summary per stored game. The store is a finite
    map without the insertion order of a JavaScript [Map], so the order
    of this list is not the order of the answer; only its elements and
    its length are meant. *)
Definition getGames (games : gmap string Game) : list GameSummary :=
  (fun kv => summaryOf kv.2) <$> map_to_list games.

End GameRoutes.

Import GameRoutes.

(** The games the routes can produce: a new game, then rounds submitted
    with two valid actions while the game is active. *)
Inductive played : Game -> Prop :=
  | played_new (gameId : string) : played (newGame gameId)
  | played_round (game : Game) (a1 a2 : JsValue) :
      played game ->
      gameStatus game = "active" ->
      validAction a1 -> validAction a2 ->
      played (processActions game a1 a2).1.

(** The stores the server can hold: empty at start, then changed by the
    two writing routes. *)
Inductive store_reachable : gmap string Game -> Prop :=
  | store_start : store_reachable ∅
  | store_create (games : gmap string Game) (now : N) :
      store_reachable games -> store_reachable (postCreate games now).1
  | store_actions (games : gmap string Game) (gameId : string)
      (body : option ActionsBody) :
      store_reachable games ->
      store_reachable (postActions games gameId body).1.

(** A game one round away from a tie: both players attack whenever they
    have energy and defend to regain it. After these ten rounds each has
    10 HP and 1 energy. *)
Definition tied_game : Game :=
  play (newGame "game_1")
    [ (ATTACK, ATTACK); (ATTACK, ATTACK); (ATTACK, ATTACK);
      (DEFEND, DEFEND); (ATTACK, ATTACK);
      (DEFEND, DEFEND); (ATTACK, ATTACK);
      (DEFEND, DEFEND); (ATTACK, ATTACK);
      (DEFEND, DEFEND) ].


(** The values a [damage] and an [energyChange] can take. *)
Definition damageValues : list Z := [0; 7; 12; 15; 25].
Definition energyChangeValues : list Z := [-2; -1; 0; 1].

(** What the winner field must be for the two HP values of a game. *)
Definition winnerFor (hp1 hp2 : Z) : option string :=
  if (hp1 <=? 0) && (hp2 <=? 0) then Some "tie"
  else if hp1 <=? 0 then Some "player2"
  else if hp2 <=? 0 then Some "player1"
  else None.

(** One round in which slot [s] plays [a] and the other slot plays [b]. *)
Definition roundFor (s : Slot) (g : Game) (a b : JsValue)
  : Game * BattleResult :=
  match s with
  | Slot1 => processActions g a b
  | Slot2 => processActions g b a
  end.

(** ** Proofs: the two calls of [executeAction] *)

Lemma set_charged_same (p : Player) : set_charged (charged p) p = p.
Proof. by destruct p. Qed.

Ltac case_action a :=
  destruct (strictEq a "attack") eqn:?;
  [| destruct (strictEq a "defend") eqn:?;
     [| destruct (strictEq a "charge") eqn:? ]].

Ltac unfold_summary :=
  unfold stagedSummary, stagedResult, energyDelta, damageDealt, chargedAfter,
    messageOf, isDefend.

Lemma executeActions_summary (p1 p2 : Player) (a1 a2 : JsValue) :
  executeActions p1 p2 a1 a2 = stagedSummary p1 p2 a1 a2.
Proof.
  unfold executeActions, executeAction. unfold_summary.
  case_action a1; case_action a2;
    destruct (energy p1 >=? 1), (energy p1 >=? 2),
             (energy p2 >=? 1), (energy p2 >=? 2);
    cbn; rewrite ?set_charged_same; reflexivity.
Qed.

Lemma executeActions_swapped_summary (p1 p2 : Player) (a1 a2 : JsValue) :
  executeActions_swapped p1 p2 a1 a2 = stagedSummary p1 p2 a1 a2.
Proof.
  unfold executeActions_swapped, executeAction. unfold_summary.
  case_action a1; case_action a2;
    destruct (energy p2 >=? 1), (energy p2 >=? 2); cbn;
    destruct (energy p1 >=? 1), (energy p1 >=? 2);
    cbn; rewrite ?set_charged_same; reflexivity.
Qed.

(** ** One round in closed form *)

Lemma damageDealt_cases (p : Player) (a : JsValue) :
  damageDealt p a = 0 \/ damageDealt p a = 15 \/ damageDealt p a = 25.
Proof.
  unfold damageDealt.
  destruct (strictEq a "attack" && (energy p >=? 1)), (charged p); auto.
Qed.

Lemma damageDealt_nonneg (p : Player) (a : JsValue) : 0 <= damageDealt p a.
Proof. destruct (damageDealt_cases p a) as [-> | [-> | ->]]; lia. Qed.

(** The damage a player finally takes: the staged damage, halved when
    the player defends. *)
Lemma defenseReduction_damage (me opp : Player) (a b : JsValue) :
  damage (defenseReduction (stagedResult me opp a b)) =
  if isDefend a then damageDealt opp b `div` 2 else damageDealt opp b.
Proof.
  unfold defenseReduction, stagedResult; cbn.
  destruct (isDefend a); cbn.
  - destruct (damageDealt_cases opp b) as [-> | [-> | ->]]; reflexivity.
  - reflexivity.
Qed.

Lemma defenseReduction_bounds (me opp : Player) (a b : JsValue) :
  0 <= damage (defenseReduction (stagedResult me opp a b)) <= damageDealt opp b.
Proof.
  rewrite defenseReduction_damage.
  destruct (isDefend a), (damageDealt_cases opp b) as [-> | [-> | ->]];
    Z.div_mod_to_equations; lia.
Qed.

Lemma defenseReduction_keeps (r : Result) :
  energyChange (defenseReduction r) = energyChange r
  /\ statusChange (defenseReduction r) = statusChange r
  /\ defending (defenseReduction r) = defending r.
Proof. unfold defenseReduction. by case_match. Qed.

(** The player in slot [s] after the round. *)
Lemma processActions_player (s : Slot) (g : Game) (a1 a2 : JsValue) :
  let me := playerOf s g in
  let opp := playerOf (opponent s) g in
  let a := actionOf s a1 a2 in
  let b := actionOf (opponent s) a1 a2 in
  playerOf s (processActions g a1 a2).1 =
  set_energy (Z.min (maxEnergy me) (Z.max 0 (energy me + energyDelta me a)))
    (set_hp (Z.max 0 (hp me - damage (defenseReduction (stagedResult me opp a b))))
       (set_charged (chargedAfter me a) me)).
Proof.
  unfold processActions. rewrite executeActions_summary.
  destruct s; cbn;
    by rewrite (proj1 (defenseReduction_keeps _)).
Qed.

(** The half of the returned battle result of slot [s]. *)
Lemma processActions_result (s : Slot) (g : Game) (a1 a2 : JsValue) :
  let me := playerOf s g in
  let opp := playerOf (opponent s) g in
  let a := actionOf s a1 a2 in
  let b := actionOf (opponent s) a1 a2 in
  resultOf s (processActions g a1 a2).2 =
  delete_defending (defenseReduction (stagedResult me opp a b)).
Proof.
  unfold processActions. rewrite executeActions_summary. by destruct s.
Qed.

Lemma stagedOf_executeActions (s : Slot) (g : Game) (a1 a2 : JsValue) :
  stagedOf s (executeActions (player1 g) (player2 g) a1 a2) =
  stagedResult (playerOf s g) (playerOf (opponent s) g)
               (actionOf s a1 a2) (actionOf (opponent s) a1 a2).
Proof. rewrite executeActions_summary. by destruct s. Qed.

Lemma processActions_hp (s : Slot) (g : Game) (a1 a2 : JsValue) :
  hp (playerOf s (processActions g a1 a2).1) =
  Z.max 0 (hp (playerOf s g) - damage (resultOf s (processActions g a1 a2).2)).
Proof. by rewrite processActions_player, processActions_result. Qed.

Lemma processActions_energy (s : Slot) (g : Game) (a1 a2 : JsValue) :
  energy (playerOf s (processActions g a1 a2).1) =
  Z.min (maxEnergy (playerOf s g))
        (Z.max 0 (energy (playerOf s g)
                  + energyDelta (playerOf s g) (actionOf s a1 a2))).
Proof. by rewrite processActions_player. Qed.

Lemma processActions_charged (s : Slot) (g : Game) (a1 a2 : JsValue) :
  charged (playerOf s (processActions g a1 a2).1) =
  chargedAfter (playerOf s g) (actionOf s a1 a2).
Proof. by rewrite processActions_player. Qed.

Lemma processActions_max (s : Slot) (g : Game) (a1 a2 : JsValue) :
  maxHp (playerOf s (processActions g a1 a2).1) = maxHp (playerOf s g)
  /\ maxEnergy (playerOf s (processActions g a1 a2).1)
     = maxEnergy (playerOf s g).
Proof. by rewrite processActions_player. Qed.

(** The invariant is kept by a round, for any two actions. *)
Lemma processActions_player_inv (s : Slot) (g : Game) (a1 a2 : JsValue) :
  player_inv (playerOf s g) ->
  player_inv (playerOf s (processActions g a1 a2).1).
Proof.
  intros [Hhp Hen]. unfold player_inv.
  destruct (processActions_max s g a1 a2) as [-> ->].
  rewrite processActions_hp, processActions_energy, processActions_result.
  pose proof (defenseReduction_bounds (playerOf s g)
    (playerOf (opponent s) g) (actionOf s a1 a2)
    (actionOf (opponent s) a1 a2)) as Hd.
  cbn [delete_defending damage]. lia.
Qed.

Lemma reachable_inv (g : Game) : reachable g -> game_inv g.
Proof.
  induction 1 as [gameId | g a1 a2 _ [IH1 IH2]].
  - repeat split; cbn; lia.
  - split.
    + exact (processActions_player_inv Slot1 g a1 a2 IH1).
    + exact (processActions_player_inv Slot2 g a1 a2 IH2).
Qed.

Lemma reachable_player_inv (s : Slot) (g : Game) :
  reachable g -> player_inv (playerOf s g).
Proof. intros [H1 H2]%reachable_inv. by destruct s. Qed.

(** The maxima are the constants of [createNewGame] in every game. *)
Lemma reachable_max (s : Slot) (g : Game) :
  reachable g -> maxHp (playerOf s g) = 100 /\ maxEnergy (playerOf s g) = 5.
Proof.
  induction 1 as [gameId | g a1 a2 _ IH].
  - by destruct s.
  - by destruct (processActions_max s g a1 a2) as [-> ->].
Qed.

Lemma reachable_play (g : Game) (rounds : list (JsValue * JsValue)) :
  reachable g -> reachable (play g rounds).
Proof.
  revert g. induction rounds as [| r rounds IH]; intros g Hg; [done |].
  apply IH. by constructor.
Qed.

(** ** End of game and round counter *)

Lemma processActions_round (g : Game) (a1 a2 : JsValue) :
  round (processActions g a1 a2).1 = round g + 1.
Proof. reflexivity. Qed.

Lemma processActions_status (g : Game) (a1 a2 : JsValue) :
  let g' := (processActions g a1 a2).1 in
  gameStatus g' =
  if (hp (player1 g') <=? 0) || (hp (player2 g') <=? 0)
  then "finished" else gameStatus g.
Proof. reflexivity. Qed.

Lemma processActions_winner (g : Game) (a1 a2 : JsValue) :
  let g' := (processActions g a1 a2).1 in
  winner g' =
  if (hp (player1 g') <=? 0) || (hp (player2 g') <=? 0) then
    if (hp (player1 g') <=? 0) && (hp (player2 g') <=? 0) then Some "tie"
    else if hp (player1 g') <=? 0 then Some "player2"
    else Some "player1"
  else winner g.
Proof. reflexivity. Qed.

(** C1, as stated, fails: in [lethal_game], an active game reached by ten
    rounds from a new game, the valid actions attack and charge bring
    player 2 to 0 HP and finish the game, and the round counter still goes
    from 11 to 12, so the rule "no increment when the game ends" does not
    hold. *)
Lemma round_rule_counterexample :
  reachable lethal_game
  /\ gameStatus lethal_game = "active"
  /\ validAction ATTACK /\ validAction CHARGE
  /\ hp (player2 (processActions lethal_game ATTACK CHARGE).1) = 0
  /\ gameStatus (processActions lethal_game ATTACK CHARGE).1 = "finished"
  /\ round lethal_game = 11
  /\ round (processActions lethal_game ATTACK CHARGE).1 = 12
  /\ ~ round_rule lethal_game ATTACK CHARGE.
Proof.
  split; [apply reachable_play; constructor |].
  repeat split; try reflexivity.
  intros [_ Hend].
  assert (round (processActions lethal_game ATTACK CHARGE).1
          = round lethal_game) as Heq.
  { apply Hend. right. vm_compute. discriminate. }
  vm_compute in Heq. discriminate.
Qed.

(** C1 (amended): for every resolution of a round by [processActions] on
    an active game the engine can hold, with valid actions: if both
    players' HP remain above 0 afterwards the round counter increments by
    exactly 1, and if either player's HP reaches 0 or less, so that the
    game becomes finished, the round counter increments by exactly 1 as
    well. *)
Theorem round_increments_every_round (g : Game) (a1 a2 : JsValue) :
  reachable g ->
  gameStatus g = "active" ->
  validAction a1 -> validAction a2 ->
  let g' := (processActions g a1 a2).1 in
  (0 < hp (player1 g') /\ 0 < hp (player2 g') ->
     gameStatus g' = "active" /\ round g' = round g + 1)
  /\ (hp (player1 g') <= 0 \/ hp (player2 g') <= 0 ->
     gameStatus g' = "finished" /\ round g' = round g + 1).
Proof.
  intros _ Hactive _ _ g'.
  pose proof (processActions_status g a1 a2) as Hs. cbv zeta in Hs.
  pose proof (processActions_round g a1 a2) as Hr.
  fold g' in Hs, Hr. rewrite Hs, Hr, Hactive. clearbody g'. clear Hs Hr.
  destruct (Z.leb_spec (hp (player1 g')) 0),
           (Z.leb_spec (hp (player2 g')) 0); cbn [orb];
    split; intros; split; try done; lia.
Qed.

Lemma round_increments_every_round_witness :
  reachable lethal_game
  /\ gameStatus lethal_game = "active"
  /\ validAction ATTACK /\ validAction CHARGE
  /\ hp (player2 (processActions lethal_game ATTACK CHARGE).1) <= 0
  /\ gameStatus (processActions lethal_game ATTACK CHARGE).1 = "finished"
  /\ round (processActions lethal_game ATTACK CHARGE).1
     = round lethal_game + 1.
Proof.
  assert (reachable lethal_game) as Hr
    by (apply reachable_play; constructor).
  assert (gameStatus lethal_game = "active") as Ha
    by (vm_compute; reflexivity).
  assert (hp (player2 (processActions lethal_game ATTACK CHARGE).1) <= 0)
    as Hz by (vm_compute; discriminate).
  split; [exact Hr | split; [exact Ha | split; [reflexivity |
    split; [reflexivity | split; [exact Hz |]]]]].
  exact (proj2 (round_increments_every_round lethal_game ATTACK CHARGE
                  Hr Ha eq_refl eq_refl) (or_intror Hz)).
Defined.

(** C3: after a round resolved on an active game, the game is finished
    exactly when at least one player's HP is <= 0; the winner is then
    'tie' when both are, and otherwise the one player whose HP stayed
    above 0; when both stay above 0 the game stays active (and the winner
    is left as it was). *)
Theorem game_end_check (g : Game) (a1 a2 : JsValue) :
  gameStatus g = "active" ->
  let g' := (processActions g a1 a2).1 in
  (gameStatus g' = "finished"
     <-> hp (player1 g') <= 0 \/ hp (player2 g') <= 0)
  /\ (hp (player1 g') <= 0 /\ hp (player2 g') <= 0 -> winner g' = Some "tie")
  /\ (hp (player1 g') <= 0 /\ 0 < hp (player2 g')
        -> winner g' = Some "player2")
  /\ (0 < hp (player1 g') /\ hp (player2 g') <= 0
        -> winner g' = Some "player1")
  /\ (0 < hp (player1 g') /\ 0 < hp (player2 g')
        -> gameStatus g' = "active" /\ winner g' = winner g).
Proof.
  intros Hactive g'.
  pose proof (processActions_status g a1 a2) as Hs.
  pose proof (processActions_winner g a1 a2) as Hw.
  cbv zeta in Hs, Hw. fold g' in Hs, Hw. rewrite Hs, Hw, Hactive.
  clearbody g'. clear Hs Hw.
  destruct (Z.leb_spec (hp (player1 g')) 0),
           (Z.leb_spec (hp (player2 g')) 0); cbn;
    repeat split; intros; try done; try lia; auto.
Qed.

Lemma game_end_check_witness :
  (gameStatus lethal_game = "active"
   /\ gameStatus (processActions lethal_game ATTACK CHARGE).1 = "finished"
   /\ winner (processActions lethal_game ATTACK CHARGE).1 = Some "player1")
  /\ (gameStatus tied_game = "active"
      /\ gameStatus (processActions tied_game ATTACK ATTACK).1 = "finished"
      /\ winner (processActions tied_game ATTACK ATTACK).1 = Some "tie")
  /\ (gameStatus (newGame "game_1") = "active"
      /\ gameStatus (processActions (newGame "game_1") ATTACK DEFEND).1
         = "active").
Proof.
  assert (gameStatus lethal_game = "active") as Hl
    by (vm_compute; reflexivity).
  assert (gameStatus tied_game = "active") as Ht
    by (vm_compute; reflexivity).
  assert (0 < hp (player1 (processActions lethal_game ATTACK CHARGE).1))
    as L1 by (vm_compute; reflexivity).
  assert (hp (player2 (processActions lethal_game ATTACK CHARGE).1) <= 0)
    as L2 by (vm_compute; discriminate).
  assert (hp (player1 (processActions tied_game ATTACK ATTACK).1) <= 0)
    as T1 by (vm_compute; discriminate).
  assert (hp (player2 (processActions tied_game ATTACK ATTACK).1) <= 0)
    as T2 by (vm_compute; discriminate).
  split; [| split].
  - split; [exact Hl |].
    destruct (game_end_check lethal_game ATTACK CHARGE Hl)
      as (Hfin & _ & _ & Hp1 & _).
    split; [exact (proj2 Hfin (or_intror L2)) | exact (Hp1 (conj L1 L2))].
  - split; [exact Ht |].
    destruct (game_end_check tied_game ATTACK ATTACK Ht)
      as (Hfin & Htie & _).
    split; [exact (proj2 Hfin (or_introl T1)) | exact (Htie (conj T1 T2))].
  - split; [reflexivity |].
    apply (game_end_check (newGame "game_1") ATTACK DEFEND);
      [reflexivity | split; reflexivity].
Defined.

(** C4: if both players satisfy 0 <= hp <= maxHp and
    0 <= energy <= maxEnergy before a round, they satisfy it after the
    round, whatever the two actions (so in particular for valid ones);
    maxHp and maxEnergy themselves are never changed by a round, so they
    stay the 100 and 5 of [createNewGame]. *)
Theorem bounds_preserved (g : Game) (a1 a2 : JsValue) :
  game_inv g ->
  let g' := (processActions g a1 a2).1 in
  game_inv g'
  /\ maxHp (player1 g') = maxHp (player1 g)
  /\ maxEnergy (player1 g') = maxEnergy (player1 g)
  /\ maxHp (player2 g') = maxHp (player2 g)
  /\ maxEnergy (player2 g') = maxEnergy (player2 g).
Proof.
  intros [H1 H2] g'. split; [split |].
  - exact (processActions_player_inv Slot1 g a1 a2 H1).
  - exact (processActions_player_inv Slot2 g a1 a2 H2).
  - destruct (processActions_max Slot1 g a1 a2),
             (processActions_max Slot2 g a1 a2). auto.
Qed.

Lemma bounds_preserved_witness :
  game_inv (newGame "game_1")
  /\ game_inv (processActions (newGame "game_1") ATTACK DEFEND).1.
Proof.
  assert (game_inv (newGame "game_1")) as Hinv.
  { repeat split; discriminate. }
  split; [exact Hinv |].
  exact (proj1 (bounds_preserved (newGame "game_1") ATTACK DEFEND Hinv)).
Defined.

(** C10: in every game the engine can hold (a new game followed by any
    rounds), a round with any pair of actions leaves each player's HP less
    than or equal to what it was: the damage taken is never negative and
    HP only goes down, stopping at 0. *)
Theorem hp_non_increasing (s : Slot) (g : Game) (a1 a2 : JsValue) :
  reachable g ->
  0 <= damage (resultOf s (processActions g a1 a2).2)
  /\ hp (playerOf s (processActions g a1 a2).1) <= hp (playerOf s g).
Proof.
  intros Hg. destruct (reachable_player_inv s g Hg) as [Hhp _].
  rewrite processActions_hp, processActions_result.
  pose proof (defenseReduction_bounds (playerOf s g)
    (playerOf (opponent s) g) (actionOf s a1 a2)
    (actionOf (opponent s) a1 a2)) as Hd.
  cbn [delete_defending damage]. lia.
Qed.

Lemma hp_non_increasing_witness :
  reachable lethal_game
  /\ hp (playerOf Slot2 (processActions lethal_game ATTACK CHARGE).1)
     <= hp (playerOf Slot2 lethal_game).
Proof.
  assert (reachable lethal_game) as Hr
    by (apply reachable_play; constructor).
  split; [exact Hr |].
  exact (proj2 (hp_non_increasing Slot2 lethal_game ATTACK CHARGE Hr)).
Defined.

(** ** The three actions and the fallback *)

Lemma opponent_involutive (s : Slot) : opponent (opponent s) = s.
Proof. by destruct s. Qed.

Lemma strictEq_true (a : JsValue) (lit : string) :
  strictEq a lit = true <-> a = JStr lit.
Proof.
  destruct a; cbn; try (split; [discriminate | congruence]).
  rewrite String.eqb_eq. split; congruence.
Qed.

Lemma invalid_strictEq (a : JsValue) :
  ~ validAction a ->
  strictEq a "attack" = false /\ strictEq a "defend" = false
  /\ strictEq a "charge" = false.
Proof.
  unfold validAction, validActions, includes.
  destruct (strictEq a "attack"), (strictEq a "defend"),
           (strictEq a "charge"); cbn; intros H; auto; by destruct H.
Qed.

Lemma geb_ge (x y : Z) : y <= x -> (x >=? y) = true.
Proof. rewrite Z.geb_leb. apply Z.leb_le. Qed.

Lemma geb_lt (x y : Z) : x < y -> (x >=? y) = false.
Proof. rewrite Z.geb_leb. apply Z.leb_gt. Qed.

(** Rewrites the fields of the state after a round into closed form. *)
Ltac round_facts :=
  rewrite ?processActions_energy, ?processActions_charged,
    ?processActions_hp, ?processActions_result, ?stagedOf_executeActions,
    ?opponent_involutive;
  cbn [delete_defending damage energyChange statusChange defending];
  rewrite ?defenseReduction_damage,
    ?(proj1 (defenseReduction_keeps _)),
    ?(proj1 (proj2 (defenseReduction_keeps _)));
  cbn [stagedResult damage energyChange statusChange defending].

(** C6: a player who chooses attack with at least 1 energy loses exactly
    1 energy, stages 25 damage against the opponent if charged at the
    start of the round and 15 otherwise, and ends the round not charged;
    with less than 1 energy the player's energy and charged flag and the
    opponent's HP are left as they were, no damage is staged, and the
    status message is 'Not enough energy!'. Stated for every game the
    engine can hold and for either slot. *)
Theorem attack_effect (s : Slot) (g : Game) (a1 a2 : JsValue) :
  reachable g ->
  actionOf s a1 a2 = ATTACK ->
  let me := playerOf s g in
  let opp := playerOf (opponent s) g in
  let staged := executeActions (player1 g) (player2 g) a1 a2 in
  let g' := (processActions g a1 a2).1 in
  let br := (processActions g a1 a2).2 in
  (1 <= energy me ->
     energy (playerOf s g') = energy me - 1
     /\ energyChange (resultOf s br) = -1
     /\ damage (stagedOf (opponent s) staged)
        = (if charged me then 25 else 15)
     /\ charged (playerOf s g') = false
     /\ statusChange (resultOf s br)
        = Some (if charged me then "Charged attack!" else "Normal attack!"))
  /\ (energy me < 1 ->
     energy (playerOf s g') = energy me
     /\ energyChange (resultOf s br) = 0
     /\ charged (playerOf s g') = charged me
     /\ damage (stagedOf (opponent s) staged) = 0
     /\ hp (playerOf (opponent s) g') = hp opp
     /\ statusChange (resultOf s br) = Some "Not enough energy!").
Proof.
  intros Hg Ha me opp staged g' br. subst staged g' br.
  destruct (reachable_player_inv s g Hg) as [_ Hen].
  destruct (reachable_player_inv (opponent s) g Hg) as [Hhp _].
  fold me in Hen. fold opp in Hhp.
  round_facts. fold me opp. rewrite Ha.
  unfold energyDelta, damageDealt, chargedAfter, messageOf. cbn [strictEq ATTACK].
  change (String.eqb "attack" "attack") with true. cbn [andb].
  split; intros He.
  - rewrite (geb_ge _ _ He). repeat split; lia.
  - rewrite (geb_lt _ _ He). rewrite Zdiv_0_l.
    repeat split; try lia. destruct (isDefend _); lia.
Qed.

Lemma attack_effect_witness :
  reachable (newGame "game_1")
  /\ actionOf Slot1 ATTACK DEFEND = ATTACK
  /\ 1 <= energy (playerOf Slot1 (newGame "game_1"))
  /\ energy (playerOf Slot1 (processActions (newGame "game_1")
                                            ATTACK DEFEND).1) = 3 - 1.
Proof.
  assert (1 <= energy (playerOf Slot1 (newGame "game_1"))) as He
    by discriminate.
  split; [constructor | split; [reflexivity | split; [exact He |]]].
  exact (proj1 (proj1 (attack_effect Slot1 (newGame "game_1") ATTACK DEFEND
                         (reachable_new "game_1") eq_refl) He)).
Defined.

(** C7: a player who chooses charge with at least 2 energy loses exactly
    2 energy and ends the round charged; with less than 2 energy both the
    energy and the charged flag are left as they were (and the status
    message is 'Not enough energy to charge!'). Stated for every game the
    engine can hold and for either slot. *)
Theorem charge_effect (s : Slot) (g : Game) (a1 a2 : JsValue) :
  reachable g ->
  actionOf s a1 a2 = CHARGE ->
  let me := playerOf s g in
  let g' := (processActions g a1 a2).1 in
  let br := (processActions g a1 a2).2 in
  (2 <= energy me ->
     energy (playerOf s g') = energy me - 2
     /\ energyChange (resultOf s br) = -2
     /\ charged (playerOf s g') = true
     /\ statusChange (resultOf s br) = Some "Charged up for next attack!")
  /\ (energy me < 2 ->
     energy (playerOf s g') = energy me
     /\ energyChange (resultOf s br) = 0
     /\ charged (playerOf s g') = charged me
     /\ statusChange (resultOf s br) = Some "Not enough energy to charge!").
Proof.
  intros Hg Ha me g' br. subst g' br.
  destruct (reachable_player_inv s g Hg) as [_ Hen]. fold me in Hen.
  round_facts. fold me. rewrite Ha.
  unfold energyDelta, chargedAfter, messageOf. cbn [strictEq CHARGE].
  change (String.eqb "charge" "attack") with false.
  change (String.eqb "charge" "defend") with false.
  change (String.eqb "charge" "charge") with true. cbv iota.
  split; intros He.
  - rewrite (geb_ge _ _ He). repeat split; lia.
  - rewrite (geb_lt _ _ He). repeat split; lia.
Qed.

Lemma charge_effect_witness :
  reachable (newGame "game_1")
  /\ actionOf Slot2 ATTACK CHARGE = CHARGE
  /\ 2 <= energy (playerOf Slot2 (newGame "game_1"))
  /\ energy (playerOf Slot2 (processActions (newGame "game_1")
                                            ATTACK CHARGE).1) = 3 - 2
  /\ charged (playerOf Slot2 (processActions (newGame "game_1")
                                             ATTACK CHARGE).1) = true.
Proof.
  assert (2 <= energy (playerOf Slot2 (newGame "game_1"))) as He
    by discriminate.
  pose proof (proj1 (charge_effect Slot2 (newGame "game_1") ATTACK CHARGE
                       (reachable_new "game_1") eq_refl) He) as H.
  split; [constructor | split; [reflexivity | split; [exact He |]]].
  split; apply H.
Defined.

Lemma isDefend_true (a : JsValue) : a = DEFEND -> isDefend a = true.
Proof. by intros ->. Qed.

Lemma isDefend_false (a : JsValue) : a <> DEFEND -> isDefend a = false.
Proof.
  intros Hne. unfold isDefend.
  destruct (strictEq a "defend") eqn:E; [| by rewrite andb_false_r].
  apply strictEq_true in E. contradiction.
Qed.

(** C5: a player who chooses defend gains 1 energy, capped at maxEnergy,
    whatever else happens in the round, and the damage staged against that
    player, whatever the opponent's action was, is halved (rounded down)
    before it is subtracted from HP; a player who did not choose defend
    takes the staged damage in full. The halving is the only change
    between the staged result and the returned one: energy change and
    status message stay as staged, and only the transient [defending] key
    is removed. Stated for every game the engine can hold and for either
    slot. *)
Theorem defend_effect (s : Slot) (g : Game) (a1 a2 : JsValue) :
  reachable g ->
  let me := playerOf s g in
  let staged := stagedOf s (executeActions (player1 g) (player2 g) a1 a2) in
  let g' := (processActions g a1 a2).1 in
  let br := (processActions g a1 a2).2 in
  (actionOf s a1 a2 = DEFEND ->
     energy (playerOf s g') = Z.min (maxEnergy me) (energy me + 1)
     /\ resultOf s br
        = delete_defending (set_damage (damage staged `div` 2) staged)
     /\ hp (playerOf s g') = Z.max 0 (hp me - damage staged `div` 2))
  /\ (actionOf s a1 a2 <> DEFEND ->
     resultOf s br = delete_defending staged
     /\ hp (playerOf s g') = Z.max 0 (hp me - damage staged)).
Proof.
  intros Hg me staged g' br. subst staged g' br.
  destruct (reachable_player_inv s g Hg) as [_ Hen]. fold me in Hen.
  rewrite processActions_energy, processActions_hp, processActions_result,
    stagedOf_executeActions.
  fold me.
  set (opp := playerOf (opponent s) g).
  set (a := actionOf s a1 a2). set (b := actionOf (opponent s) a1 a2).
  pose proof (defenseReduction_damage me opp a b) as Hd.
  pose proof (defenseReduction_keeps (stagedResult me opp a b))
    as (Hk1 & Hk2 & Hk3).
  split; intros Ha.
  - rewrite (isDefend_true a Ha) in Hd.
    assert (energyDelta me a = 1) as -> by (rewrite Ha; reflexivity).
    split; [lia |]. split.
    + unfold delete_defending, set_damage. by rewrite Hk1, Hk2, Hd.
    + cbn [delete_defending damage]. by rewrite Hd.
  - rewrite (isDefend_false a Ha) in Hd. split.
    + unfold delete_defending. by rewrite Hk1, Hk2, Hd.
    + cbn [delete_defending damage]. by rewrite Hd.
Qed.

Lemma defend_effect_witness :
  reachable (newGame "game_1")
  /\ actionOf Slot2 ATTACK DEFEND = DEFEND
  /\ energy (playerOf Slot2 (processActions (newGame "game_1")
                                            ATTACK DEFEND).1) = 4
  /\ hp (playerOf Slot2 (processActions (newGame "game_1")
                                        ATTACK DEFEND).1) = 93.
Proof.
  pose proof (proj1 (defend_effect Slot2 (newGame "game_1") ATTACK DEFEND
                       (reachable_new "game_1")) eq_refl) as H.
  split; [constructor | split; [reflexivity |]].
  split; [exact (proj1 H) | exact (proj2 (proj2 H))].
Defined.

(** C2: when a player's action is none of attack, defend, charge,
    [executeAction] changes nothing but the status message, which becomes
    'Invalid action!': attacker, defender and the defender's result come
    back as they went in. In the round, that player's energy and charged
    flag and the opponent's HP are what they were before, the energy
    change is 0, no damage is dealt to the opponent, and the damage the
    player takes is the damage the opponent staged, not halved. Stated
    for every game the engine can hold and for either slot. *)
Theorem invalid_action_no_effect (s : Slot) (g : Game) (a1 a2 : JsValue)
    (attackerResult defenderResult : Result) (attackerName : string) :
  reachable g ->
  ~ validAction (actionOf s a1 a2) ->
  let me := playerOf s g in
  let opp := playerOf (opponent s) g in
  let staged := executeActions (player1 g) (player2 g) a1 a2 in
  let g' := (processActions g a1 a2).1 in
  let br := (processActions g a1 a2).2 in
  executeAction me opp (actionOf s a1 a2) attackerResult defenderResult
                attackerName
  = (me, opp, set_statusChange "Invalid action!" attackerResult,
     defenderResult)
  /\ statusChange (resultOf s br) = Some "Invalid action!"
  /\ energyChange (resultOf s br) = 0
  /\ damage (resultOf (opponent s) br) = 0
  /\ damage (resultOf s br) = damage (stagedOf s staged)
  /\ energy (playerOf s g') = energy me
  /\ charged (playerOf s g') = charged me
  /\ hp (playerOf (opponent s) g') = hp opp.
Proof.
  intros Hg Hinv me opp staged g' br. subst staged g' br.
  destruct (invalid_strictEq _ Hinv) as (E1 & E2 & E3).
  destruct (reachable_player_inv s g Hg) as [_ Hen].
  destruct (reachable_player_inv (opponent s) g Hg) as [Hhp _].
  fold me in Hen. fold opp in Hhp.
  split; [unfold executeAction; by rewrite E1, E2, E3 |].
  round_facts. fold me opp.
  unfold energyDelta, damageDealt, chargedAfter, messageOf.
  unfold isDefend at 2. rewrite E1, E2, E3. cbn [andb negb].
  rewrite Zdiv_0_l.
  repeat split; try lia; destruct (isDefend _); lia.
Qed.

Lemma invalid_action_no_effect_witness :
  reachable (newGame "game_1")
  /\ ~ validAction (actionOf Slot1 (JStr "heal") ATTACK)
  /\ statusChange (resultOf Slot1 (processActions (newGame "game_1")
                                     (JStr "heal") ATTACK).2)
     = Some "Invalid action!"
  /\ energy (playerOf Slot1 (processActions (newGame "game_1")
                               (JStr "heal") ATTACK).1) = 3.
Proof.
  assert (~ validAction (actionOf Slot1 (JStr "heal") ATTACK)) as Hinv
    by discriminate.
  pose proof (invalid_action_no_effect Slot1 (newGame "game_1")
                (JStr "heal") ATTACK freshResult freshResult "Player 1"
                (reachable_new "game_1") Hinv) as H.
  split; [constructor | split; [exact Hinv |]].
  split; [apply H | apply H].
Defined.

(** ** Simultaneous resolution *)

(** C8: executing player 2's action before player 1's gives the same game
    and the same battle result as the order of the code. After the two
    calls of [executeAction], a player's own state, energy change, status
    message and defending mark, and the damage that player stages against
    the other, are the same whatever the other player is and does; after
    the round, so are the player's energy and charged flag and the energy
    change and message reported. The other player's action enters only
    through the damage it stages and, for the damage a player stages,
    through the halving when the other player defends. *)
Theorem simultaneous_resolution (g : Game) (a1 a2 : JsValue) :
  processActions_swapped g a1 a2 = processActions g a1 a2
  /\ (forall (p1 p2 q : Player) (b : JsValue),
        let st := executeActions p1 p2 a1 a2 in
        let st' := executeActions p1 q a1 b in
        st_p1 st = st_p1 st'
        /\ energyChange (st_r1 st) = energyChange (st_r1 st')
        /\ statusChange (st_r1 st) = statusChange (st_r1 st')
        /\ defending (st_r1 st) = defending (st_r1 st')
        /\ damage (st_r2 st) = damage (st_r2 st'))
  /\ (forall (p1 p2 q : Player) (b : JsValue),
        let st := executeActions p1 p2 a1 a2 in
        let st' := executeActions q p2 b a2 in
        st_p2 st = st_p2 st'
        /\ energyChange (st_r2 st) = energyChange (st_r2 st')
        /\ statusChange (st_r2 st) = statusChange (st_r2 st')
        /\ defending (st_r2 st) = defending (st_r2 st')
        /\ damage (st_r1 st) = damage (st_r1 st'))
  /\ (forall (s : Slot) (b1 b2 : JsValue),
        actionOf s b1 b2 = actionOf s a1 a2 ->
        let g' := (processActions g a1 a2).1 in
        let h' := (processActions g b1 b2).1 in
        let br := (processActions g a1 a2).2 in
        let bs := (processActions g b1 b2).2 in
        energy (playerOf s g') = energy (playerOf s h')
        /\ charged (playerOf s g') = charged (playerOf s h')
        /\ energyChange (resultOf s br) = energyChange (resultOf s bs)
        /\ statusChange (resultOf s br) = statusChange (resultOf s bs))
  /\ (forall s : Slot,
        let staged :=
          stagedOf s (executeActions (player1 g) (player2 g) a1 a2) in
        damage (resultOf s (processActions g a1 a2).2) =
        if strictEq (actionOf s a1 a2) "defend"
        then damage staged `div` 2 else damage staged).
Proof.
  split; [| split; [| split; [| split]]].
  - unfold processActions_swapped, processActions.
    by rewrite executeActions_swapped_summary, executeActions_summary.
  - intros p1 p2 q b. cbv zeta. by rewrite !executeActions_summary.
  - intros p1 p2 q b. cbv zeta. by rewrite !executeActions_summary.
  - intros s b1 b2 Hb. cbv zeta. round_facts. by rewrite Hb.
  - intros s. cbv zeta. round_facts. unfold isDefend.
    destruct (strictEq (actionOf s a1 a2) "attack") eqn:E; [| done].
    apply strictEq_true in E. by rewrite E.
Qed.

Lemma simultaneous_resolution_witness :
  actionOf Slot1 ATTACK CHARGE = actionOf Slot1 ATTACK DEFEND
  /\ energy (playerOf Slot1 (processActions lethal_game ATTACK DEFEND).1)
     = energy (playerOf Slot1 (processActions lethal_game ATTACK CHARGE).1).
Proof.
  split; [reflexivity |].
  apply (proj1 (proj2 (proj2 (proj2
           (simultaneous_resolution lethal_game ATTACK DEFEND))))
           Slot1 ATTACK CHARGE eq_refl).
Defined.

(** ** Errors of the action-submission route *)

(** A falsy value, an absent key among them, is no valid action. *)
Lemma falsy_not_valid (a : JsValue) : truthy a = false -> ~ validAction a.
Proof.
  unfold validAction.
  destruct a as [| | b | n | s |]; cbn; try discriminate.
  intros Hs%negb_false_iff%String.eqb_eq. by subst s.
Qed.

(** When the checks pass the engine runs and the game is replaced by its
    successor: a successful submission always changes the store, as the
    round counter moves. *)
Lemma postActions_success (games : gmap string Game) (gameId : string)
    (body : ActionsBody) (game : Game) :
  games !! gameId = Some game ->
  gameStatus game = "active" ->
  validAction (player1Action body) ->
  validAction (player2Action body) ->
  let '(game', battleResult) :=
    processActions game (player1Action body) (player2Action body) in
  postActions games gameId (Some body)
  = (<[gameId := game']> games,
     mkResponse 200 (Success (getGameState game') battleResult))
  /\ <[gameId := game']> games <> games.
Proof.
  intros Hget Hact Hv1 Hv2.
  destruct (processActions _ _ _) as [game' br] eqn:Hp.
  unfold postActions, actionsTry. rewrite Hget, Hact.
  change (String.eqb "active" "active") with true. cbn [negb].
  destruct (truthy (player1Action body)) eqn:T1;
    [| by destruct (falsy_not_valid _ T1)].
  destruct (truthy (player2Action body)) eqn:T2;
    [| by destruct (falsy_not_valid _ T2)].
  unfold validAction in Hv1, Hv2. rewrite Hv1, Hv2, Hp. cbn.
  split; [done |]. intros Heq.
  assert (Some game' = Some game) as [= ->].
  { rewrite <- Hget, <- Heq. by rewrite lookup_insert_eq. }
  pose proof (processActions_round game (player1Action body)
                                   (player2Action body)) as Hr.
  rewrite Hp in Hr. cbn in Hr. lia.
Qed.

Lemma postActions_unknown (games : gmap string Game) (gameId : string)
    (body : option ActionsBody) :
  games !! gameId = None ->
  postActions games gameId body = (games, NotFound).
Proof. unfold postActions, actionsTry. by intros ->. Qed.

Lemma postActions_inactive (games : gmap string Game) (gameId : string)
    (body : option ActionsBody) (game : Game) :
  games !! gameId = Some game ->
  gameStatus game <> "active" ->
  postActions games gameId body = (games, GameNotActive).
Proof.
  unfold postActions, actionsTry. intros -> Hst.
  destruct (String.eqb (gameStatus game) "active") eqn:E; [| done].
  by apply String.eqb_eq in E.
Qed.

(** Without a parsed body the destructuring throws on a stored active
    game, and the [catch] branch answers. *)
Lemma postActions_nobody (games : gmap string Game) (gameId : string)
    (game : Game) :
  games !! gameId = Some game ->
  gameStatus game = "active" ->
  postActions games gameId None = (games, InternalFault).
Proof. unfold postActions, actionsTry. by intros -> ->. Qed.

Lemma postActions_invalid (games : gmap string Game) (gameId : string)
    (body : ActionsBody) (game : Game) :
  games !! gameId = Some game ->
  gameStatus game = "active" ->
  ~ validAction (player1Action body) \/ ~ validAction (player2Action body) ->
  (postActions games gameId (Some body)).1 = games
  /\ InvalidInput body (postActions games gameId (Some body)).2.
Proof.
  unfold postActions, actionsTry. intros -> -> Hinv.
  change (String.eqb "active" "active") with true. cbn [negb].
  destruct (negb (truthy (player1Action body))
            || negb (truthy (player2Action body))) eqn:T.
  - split; [done |]. by left.
  - destruct (negb (includes validActions (player1Action body))
              || negb (includes validActions (player2Action body))) eqn:V.
    + split; [done |]. by right.
    + apply orb_false_elim in V as [V1%negb_false_iff V2%negb_false_iff].
      by destruct Hinv as [H | H]; destruct H.
Qed.




(** ** Scenarios of the specification *)

(** Two fresh players, attack against defend. *)
Example scenario_attack_defend :
  let g := (processActions (newGame "game_1") ATTACK DEFEND).1 in
  energy (player1 g) = 2 /\ energy (player2 g) = 4
  /\ hp (player1 g) = 100 /\ hp (player2 g) = 93
  /\ round g = 2 /\ gameStatus g = "active" /\ winner g = None.
Proof. by vm_compute. Qed.

(** Player 1 at 1 energy attacks, player 2 at 5 energy charges. *)
Example scenario_attack_charge :
  let g0 := play (newGame "game_1") [(ATTACK, DEFEND); (ATTACK, DEFEND)] in
  let '(g, br) := processActions g0 ATTACK CHARGE in
  energy (player1 g0) = 1 /\ charged (player1 g0) = false
  /\ energy (player2 g0) = 5
  /\ energy (player1 g) = 0 /\ damage (br_player2 br) = 15
  /\ hp (player2 g) = hp (player2 g0) - 15
  /\ energy (player2 g) = 3 /\ charged (player2 g) = true.
Proof. by vm_compute. Qed.

(** Both players attack and both fall to 0 in the same round. *)
Example scenario_tie :
  let g0 := play (newGame "game_1")
              [ (ATTACK, ATTACK); (ATTACK, ATTACK); (ATTACK, ATTACK);
                (DEFEND, DEFEND); (ATTACK, ATTACK);
                (DEFEND, DEFEND); (ATTACK, ATTACK);
                (DEFEND, DEFEND); (ATTACK, ATTACK);
                (DEFEND, DEFEND) ] in
  let g := (processActions g0 ATTACK ATTACK).1 in
  hp (player1 g0) = 10 /\ hp (player2 g0) = 10 /\ gameStatus g0 = "active"
  /\ hp (player1 g) = 0 /\ hp (player2 g) = 0
  /\ gameStatus g = "finished" /\ winner g = Some "tie".
Proof. by vm_compute. Qed.

(** One log entry per round, and at most the last three in the view. *)
Lemma battleLog_grows (g : Game) (a1 a2 : JsValue) :
  length (battleLog (processActions g a1 a2).1)
  = S (length (battleLog g)).
Proof.
  unfold processActions, applyResults. cbn [fst battleLog].
  rewrite length_app. cbn. lia.
Qed.

Lemma recentBattleLog_length (g : Game) :
  length (recentBattleLog (getGameState g))
  = Nat.min 3 (length (battleLog g)).
Proof.
  unfold getGameState, slice_last. cbn [recentBattleLog].
  rewrite length_drop. lia.
Qed.

(** ** Further properties of the engine *)

Lemma processActions_battleLog (g : Game) (a1 a2 : JsValue) :
  battleLog (processActions g a1 a2).1 =
  (battleLog g
   ++ [ {| le_round := round g;
           le_actions := (a1, a2);
           le_results := (processActions g a1 a2).2;
           le_finalHp := (hp (player1 (processActions g a1 a2).1),
                          hp (player2 (processActions g a1 a2).1)) |} ])%list.
Proof. reflexivity. Qed.

Lemma processActions_lastActions (g : Game) (a1 a2 : JsValue) :
  lastActions (processActions g a1 a2).1 = (a1, a2).
Proof. reflexivity. Qed.

Lemma processActions_hp_bounds (s : Slot) (g : Game) (a1 a2 : JsValue) :
  0 <= hp (playerOf s g) ->
  hp (playerOf s g) - 25 <= hp (playerOf s (processActions g a1 a2).1)
  /\ hp (playerOf s (processActions g a1 a2).1) <= hp (playerOf s g)
  /\ 0 <= hp (playerOf s (processActions g a1 a2).1).
Proof.
  intros Hhp. rewrite processActions_hp, processActions_result.
  pose proof (defenseReduction_bounds (playerOf s g)
    (playerOf (opponent s) g) (actionOf s a1 a2)
    (actionOf (opponent s) a1 a2)) as Hd.
  destruct (damageDealt_cases (playerOf (opponent s) g)
              (actionOf (opponent s) a1 a2)) as [E | [E | E]];
    rewrite E in Hd; cbn [delete_defending damage]; lia.
Qed.

Lemma energyDelta_bounds (p : Player) (a : JsValue) :
  0 <= energy p ->
  0 <= energy p + energyDelta p a /\ -2 <= energyDelta p a <= 1.
Proof.
  intros He. unfold energyDelta. rewrite !Z.geb_leb.
  case_action a;
    destruct (Z.leb_spec 1 (energy p)), (Z.leb_spec 2 (energy p)); lia.
Qed.

(** Status and winner of a game are those its two HP values call for. *)
Lemma reachable_status (g : Game) :
  reachable g ->
  gameStatus g
  = (if (hp (player1 g) <=? 0) || (hp (player2 g) <=? 0)
     then "finished" else "active")
  /\ winner g = winnerFor (hp (player1 g)) (hp (player2 g)).
Proof.
  induction 1 as [gameId | g a1 a2 Hg [IHs IHw]]; [by split |].
  destruct (reachable_inv g Hg) as [[[Hh1 _] _] [[Hh2 _] _]].
  pose proof (processActions_hp_bounds Slot1 g a1 a2 Hh1) as B1.
  pose proof (processActions_hp_bounds Slot2 g a1 a2 Hh2) as B2.
  cbn [playerOf] in B1, B2.
  pose proof (processActions_status g a1 a2) as Hs.
  pose proof (processActions_winner g a1 a2) as Hw.
  cbv zeta in Hs, Hw. rewrite Hs, Hw, IHs, IHw. unfold winnerFor.
  destruct (Z.leb_spec (hp (player1 (processActions g a1 a2).1)) 0),
           (Z.leb_spec (hp (player2 (processActions g a1 a2).1)) 0);
    cbn [orb andb]; try done.
  destruct (Z.leb_spec (hp (player1 g)) 0), (Z.leb_spec (hp (player2 g)) 0);
    cbn [orb andb]; try done; lia.
Qed.

(** X1: in every game the engine can hold, the round counter is one more
    than the number of log entries, and the entries are numbered 1, 2, 3,
    ... in order: entry [i] (from 0) carries round [i + 1]. *)
Theorem log_round_numbers (g : Game) :
  reachable g ->
  round g = Z.of_nat (length (battleLog g)) + 1
  /\ forall (i : nat) (e : LogEntry),
       battleLog g !! i = Some e -> le_round e = Z.of_nat i + 1.
Proof.
  induction 1 as [gameId | g a1 a2 Hg [IHr IHl]].
  - split; [reflexivity |]. intros i e Hi. by destruct i.
  - rewrite processActions_round, processActions_battleLog, length_app.
    split; [cbn [length]; lia |].
    intros i e [Hi | [Hle Hi]]%lookup_app_Some; [by apply IHl |].
    destruct (i - length (battleLog g))%nat eqn:E; [| by destruct n].
    injection Hi as <-. cbn [le_round]. lia.
Qed.

Lemma log_round_numbers_witness :
  reachable lethal_game
  /\ round lethal_game = Z.of_nat (length (battleLog lethal_game)) + 1.
Proof.
  assert (reachable lethal_game) as Hr
    by (apply reachable_play; constructor).
  split; [exact Hr |].
  exact (proj1 (log_round_numbers lethal_game Hr)).
Defined.

(** X2: in every game the engine can hold, the last log entry describes
    the present state: its actions are [lastActions], its final HP are the
    two players' HP, its round is the counter minus one. With an empty log
    the game is untouched: round 1, [lastActions] both null, both players
    at 100 HP. *)
Theorem log_matches_state (g : Game) :
  reachable g ->
  match last (battleLog g) with
  | Some e =>
      le_actions e = lastActions g
      /\ le_finalHp e = (hp (player1 g), hp (player2 g))
      /\ le_round e = round g - 1
  | None =>
      round g = 1 /\ lastActions g = (JNull, JNull)
      /\ hp (player1 g) = 100 /\ hp (player2 g) = 100
  end.
Proof.
  intros [gameId | g0 a1 a2 Hg]; [done |].
  rewrite processActions_battleLog, last_snoc.
  rewrite processActions_round, processActions_lastActions.
  cbn [le_actions le_finalHp le_round]. repeat split. lia.
Qed.

Lemma log_matches_state_witness :
  reachable lethal_game
  /\ match last (battleLog lethal_game) with
     | Some e => le_finalHp e = (100, 10)
     | None => False
     end.
Proof.
  assert (reachable lethal_game) as Hr
    by (apply reachable_play; constructor).
  split; [exact Hr |].
  pose proof (log_matches_state lethal_game Hr) as H.
  destruct (last (battleLog lethal_game)) as [e |] eqn:E.
  - exact (proj1 (proj2 H)).
  - vm_compute in E. discriminate E.
Defined.

(** X3: in every game the engine can hold, status and winner agree with
    the two HP values: the game is 'finished' exactly when some player is
    at 0 HP and 'active' exactly when both are above 0; the winner is null
    exactly while the game is active, 'tie' exactly when both are at 0,
    and otherwise the player who is above 0. *)
Theorem status_consistent (g : Game) :
  reachable g ->
  let h1 := hp (player1 g) in
  let h2 := hp (player2 g) in
  (gameStatus g = "finished" <-> h1 = 0 \/ h2 = 0)
  /\ (gameStatus g = "active" <-> 0 < h1 /\ 0 < h2)
  /\ (winner g = None <-> gameStatus g = "active")
  /\ (winner g = Some "tie" <-> h1 = 0 /\ h2 = 0)
  /\ (winner g = Some "player1" <-> 0 < h1 /\ h2 = 0)
  /\ (winner g = Some "player2" <-> h1 = 0 /\ 0 < h2).
Proof.
  intros Hg h1 h2.
  destruct (reachable_status g Hg) as [Hs Hw].
  destruct (reachable_inv g Hg) as [[[Hh1 _] _] [[Hh2 _] _]].
  fold h1 in Hs, Hw, Hh1. fold h2 in Hs, Hw, Hh2.
  rewrite Hs, Hw. unfold winnerFor. clearbody h1 h2.
  destruct (Z.leb_spec h1 0), (Z.leb_spec h2 0); cbn [orb andb];
    repeat split; intros; try done; try lia.
Qed.

Lemma status_consistent_witness :
  reachable (processActions lethal_game ATTACK CHARGE).1
  /\ (winner (processActions lethal_game ATTACK CHARGE).1 = Some "player1"
      <-> 0 < hp (player1 (processActions lethal_game ATTACK CHARGE).1)
          /\ hp (player2 (processActions lethal_game ATTACK CHARGE).1) = 0).
Proof.
  assert (reachable (processActions lethal_game ATTACK CHARGE).1) as Hr
    by (constructor; apply reachable_play; constructor).
  split; [exact Hr |].
  apply (status_consistent _ Hr).
Defined.

(** X4: the engine itself does not refuse a finished game, but the end is
    final: a further round on a finished game the engine can hold leaves
    it finished, and a player at 0 HP stays at 0. *)
Theorem finished_stays_finished (g : Game) (a1 a2 : JsValue) :
  reachable g ->
  gameStatus g = "finished" ->
  gameStatus (processActions g a1 a2).1 = "finished"
  /\ forall s : Slot,
       hp (playerOf s g) = 0 ->
       hp (playerOf s (processActions g a1 a2).1) = 0.
Proof.
  intros Hg Hfin.
  assert (forall s : Slot,
            hp (playerOf s g) = 0 ->
            hp (playerOf s (processActions g a1 a2).1) = 0) as Hzero.
  { intros s Hs.
    pose proof (processActions_hp_bounds s g a1 a2) as B. lia. }
  split; [| exact Hzero].
  destruct (reachable_status g Hg) as [Hs _]. rewrite Hfin in Hs.
  destruct (reachable_inv g Hg) as [[[Hh1 _] _] [[Hh2 _] _]].
  pose proof (Hzero Slot1) as Z1. pose proof (Hzero Slot2) as Z2.
  cbn [playerOf] in Z1, Z2.
  pose proof (processActions_status g a1 a2) as Hs'. cbv zeta in Hs'.
  rewrite Hs'. revert Hs.
  destruct (Z.leb_spec (hp (player1 g)) 0),
           (Z.leb_spec (hp (player2 g)) 0); cbn [orb]; intros Hs;
    try done.
  - rewrite Z1 by lia. done.
  - rewrite Z1 by lia. done.
  - rewrite Z2 by lia. by rewrite orb_true_r.
Qed.

Lemma finished_stays_finished_witness :
  reachable (processActions lethal_game ATTACK CHARGE).1
  /\ gameStatus (processActions lethal_game ATTACK CHARGE).1 = "finished"
  /\ gameStatus (processActions (processActions lethal_game ATTACK CHARGE).1
                                DEFEND ATTACK).1 = "finished".
Proof.
  assert (reachable (processActions lethal_game ATTACK CHARGE).1) as Hr
    by (constructor; apply reachable_play; constructor).
  assert (gameStatus (processActions lethal_game ATTACK CHARGE).1
          = "finished") as Hf by (vm_compute; reflexivity).
  split; [exact Hr | split; [exact Hf |]].
  exact (proj1 (finished_stays_finished _ DEFEND ATTACK Hr Hf)).
Defined.

(** X5: in every game the engine can hold, the reported energy change
    never takes a player's energy below 0, so the lower clamp
    [Math.max(0, ...)] on energy never acts: the new energy is the old one
    plus the reported change, cut at maxEnergy only. *)
Theorem energy_lower_clamp_idle (s : Slot) (g : Game) (a1 a2 : JsValue) :
  reachable g ->
  let me := playerOf s g in
  let change := energyChange (resultOf s (processActions g a1 a2).2) in
  0 <= energy me + change
  /\ energy (playerOf s (processActions g a1 a2).1)
     = Z.min (maxEnergy me) (energy me + change).
Proof.
  intros Hg me change. subst change.
  destruct (reachable_player_inv s g Hg) as [_ [He _]]. fold me in He.
  round_facts. fold me.
  destruct (energyDelta_bounds me (actionOf s a1 a2) He) as [Hd _].
  split; [exact Hd | lia].
Qed.

Lemma energy_lower_clamp_idle_witness :
  reachable lethal_game
  /\ energy (playerOf Slot2 (processActions lethal_game ATTACK CHARGE).1)
     = Z.min (maxEnergy (playerOf Slot2 lethal_game))
             (energy (playerOf Slot2 lethal_game)
              + energyChange (resultOf Slot2
                  (processActions lethal_game ATTACK CHARGE).2)).
Proof.
  assert (reachable lethal_game) as Hr
    by (apply reachable_play; constructor).
  split; [exact Hr |].
  exact (proj2 (energy_lower_clamp_idle Slot2 lethal_game ATTACK CHARGE Hr)).
Defined.

(** X6: whatever the game and the two actions, each half of the returned
    battle result has a damage among 0, 7, 12, 15, 25, an energy change
    among -2, -1, 0, 1, a status message (never null) and no [defending]
    key; the [messages] list is always empty. *)
Theorem result_shape (s : Slot) (g : Game) (a1 a2 : JsValue) :
  let br := (processActions g a1 a2).2 in
  damage (resultOf s br) ∈ damageValues
  /\ energyChange (resultOf s br) ∈ energyChangeValues
  /\ is_Some (statusChange (resultOf s br))
  /\ defending (resultOf s br) = None
  /\ messages br = [].
Proof.
  cbv zeta. split; [| split; [| split; [| split]]].
  - round_facts. unfold damageValues.
    destruct (isDefend _),
      (damageDealt_cases (playerOf (opponent s) g)
         (actionOf (opponent s) a1 a2)) as [-> | [-> | ->]];
      apply list_elem_of_In; vm_compute; tauto.
  - round_facts. unfold energyChangeValues, energyDelta.
    case_action (actionOf s a1 a2);
      destruct (energy (playerOf s g) >=? 1),
               (energy (playerOf s g) >=? 2);
      apply list_elem_of_In; vm_compute; tauto.
  - round_facts. by eexists.
  - by rewrite processActions_result.
  - unfold processActions.
    by destruct (executeActions (player1 g) (player2 g) a1 a2).
Qed.

(** X7: in every game the engine can hold, one round takes at most 25 HP
    from a player and never gives any back, and it changes a player's
    energy by at least -2 and at most +1. *)
Theorem round_deltas_bounded (s : Slot) (g : Game) (a1 a2 : JsValue) :
  reachable g ->
  let me := playerOf s g in
  let me' := playerOf s (processActions g a1 a2).1 in
  hp me - 25 <= hp me' <= hp me
  /\ energy me - 2 <= energy me' <= energy me + 1.
Proof.
  intros Hg me me'. subst me'.
  destruct (reachable_player_inv s g Hg) as [[Hh _] [He Hm]].
  fold me in Hh, He, Hm.
  pose proof (processActions_hp_bounds s g a1 a2 Hh) as B. fold me in B.
  destruct (energyDelta_bounds me (actionOf s a1 a2) He) as [Hd Hb].
  rewrite processActions_energy. fold me. lia.
Qed.

Lemma round_deltas_bounded_witness :
  reachable lethal_game
  /\ hp (playerOf Slot2 lethal_game) - 25
     <= hp (playerOf Slot2 (processActions lethal_game ATTACK CHARGE).1).
Proof.
  assert (reachable lethal_game) as Hr
    by (apply reachable_play; constructor).
  split; [exact Hr |].
  exact (proj1 (proj1 (round_deltas_bounded Slot2 lethal_game ATTACK CHARGE
                         Hr))).
Defined.

(** X8: the charged flag changes only through a successful attack or a
    successful charge, for any game and any actions: a charged player who
    does anything but attack with at least 1 energy is still charged after
    the round, and a player who is not charged and does anything but
    charge with at least 2 energy is still not charged. *)
Theorem charged_persists (s : Slot) (g : Game) (a1 a2 : JsValue) :
  let me := playerOf s g in
  let me' := playerOf s (processActions g a1 a2).1 in
  (charged me = true ->
     ~ (actionOf s a1 a2 = ATTACK /\ 1 <= energy me) ->
     charged me' = true)
  /\ (charged me = false ->
     ~ (actionOf s a1 a2 = CHARGE /\ 2 <= energy me) ->
     charged me' = false).
Proof.
  cbv zeta. rewrite processActions_charged. unfold chargedAfter.
  rewrite !Z.geb_leb.
  split; intros Hc Hno; rewrite Hc.
  - destruct (strictEq (actionOf s a1 a2) "attack") eqn:E1.
    + apply strictEq_true in E1.
      destruct (Z.leb_spec 1 (energy (playerOf s g))); [| done].
      by destruct Hno.
    + by repeat case_match.
  - destruct (strictEq (actionOf s a1 a2) "attack") eqn:E1;
      [by case_match |].
    destruct (strictEq (actionOf s a1 a2) "defend") eqn:E2; [done |].
    destruct (strictEq (actionOf s a1 a2) "charge") eqn:E3; [| done].
    apply strictEq_true in E3.
    destruct (Z.leb_spec 2 (energy (playerOf s g))); [| done].
    by destruct Hno.
Qed.

Lemma charged_persists_witness :
  charged (playerOf Slot2 lethal_game) = true
  /\ ~ (actionOf Slot2 ATTACK DEFEND = ATTACK
        /\ 1 <= energy (playerOf Slot2 lethal_game))
  /\ charged (playerOf Slot2 (processActions lethal_game ATTACK DEFEND).1)
     = true.
Proof.
  assert (charged (playerOf Slot2 lethal_game) = true) as Hc
    by (vm_compute; reflexivity).
  assert (~ (actionOf Slot2 ATTACK DEFEND = ATTACK
             /\ 1 <= energy (playerOf Slot2 lethal_game))) as Hno
    by (intros [Heq _]; discriminate Heq).
  split; [exact Hc | split; [exact Hno |]].
  exact (proj1 (charged_persists Slot2 lethal_game ATTACK DEFEND) Hc Hno).
Defined.

(** X9: in every game the engine can hold, a player's HP changes in a
    round exactly when the opponent attacks with at least 1 energy: such
    an attack lowers the HP of a player who has any left, defending or
    not, and without it the HP is unchanged. *)
Theorem hp_changes_only_on_attack (s : Slot) (g : Game) (a1 a2 : JsValue) :
  reachable g ->
  let me := playerOf s g in
  let opp := playerOf (opponent s) g in
  let me' := playerOf s (processActions g a1 a2).1 in
  (actionOf (opponent s) a1 a2 = ATTACK -> 1 <= energy opp -> 0 < hp me ->
     hp me' < hp me)
  /\ (~ (actionOf (opponent s) a1 a2 = ATTACK /\ 1 <= energy opp) ->
     hp me' = hp me).
Proof.
  intros Hg me opp me'. subst me'.
  destruct (reachable_player_inv s g Hg) as [[Hh _] _]. fold me in Hh.
  round_facts. fold me opp. unfold damageDealt. rewrite Z.geb_leb.
  split.
  - intros -> He Hpos. cbn [strictEq ATTACK].
    change (String.eqb "attack" "attack") with true.
    destruct (Z.leb_spec 1 (energy opp)); [| lia]. cbn [andb].
    destruct (isDefend _), (charged opp); Z.div_mod_to_equations; lia.
  - intros Hno.
    destruct (strictEq (actionOf (opponent s) a1 a2) "attack") eqn:E1.
    + apply strictEq_true in E1.
      destruct (Z.leb_spec 1 (energy opp)); [by destruct Hno |].
      cbn [andb]. rewrite Zdiv_0_l. destruct (isDefend _); lia.
    + cbn [andb]. rewrite Zdiv_0_l. destruct (isDefend _); lia.
Qed.

Lemma hp_changes_only_on_attack_witness :
  reachable lethal_game
  /\ actionOf (opponent Slot2) ATTACK DEFEND = ATTACK
  /\ 1 <= energy (playerOf (opponent Slot2) lethal_game)
  /\ 0 < hp (playerOf Slot2 lethal_game)
  /\ hp (playerOf Slot2 (processActions lethal_game ATTACK DEFEND).1)
     < hp (playerOf Slot2 lethal_game).
Proof.
  assert (reachable lethal_game) as Hr
    by (apply reachable_play; constructor).
  assert (1 <= energy (playerOf (opponent Slot2) lethal_game)) as He
    by (vm_compute; discriminate).
  assert (0 < hp (playerOf Slot2 lethal_game)) as Hp
    by (vm_compute; reflexivity).
  split; [exact Hr | split; [reflexivity | split; [exact He |
    split; [exact Hp |]]]].
  exact (proj1 (hp_changes_only_on_attack Slot2 lethal_game ATTACK DEFEND Hr)
           eq_refl He Hp).
Defined.

(** X10: a round never touches the identity of a game: it keeps the
    game's id, and in every game the engine can hold [currentTurn] is
    still 'player1', the two players still carry the ids, names and
    maxima of [createNewGame], and their status is still 'active', also
    at 0 HP in a finished game. *)
Theorem identity_fields_constant (g : Game) :
  reachable g ->
  currentTurn g = "player1"
  /\ (forall a1 a2 : JsValue, g_id (processActions g a1 a2).1 = g_id g)
  /\ p_id (player1 g) = "player1" /\ p_id (player2 g) = "player2"
  /\ p_name (player1 g) = "Player 1" /\ p_name (player2 g) = "Player 2"
  /\ p_status (player1 g) = "active" /\ p_status (player2 g) = "active"
  /\ maxHp (player1 g) = 100 /\ maxHp (player2 g) = 100
  /\ maxEnergy (player1 g) = 5 /\ maxEnergy (player2 g) = 5.
Proof.
  intros Hg. split; [| split; [reflexivity |]].
  - induction Hg; [done | assumption].
  - induction Hg as [gameId | g a1 a2 Hg IH]; [by repeat split |].
    pose proof (processActions_player Slot1 g a1 a2) as E1.
    pose proof (processActions_player Slot2 g a1 a2) as E2.
    cbn [playerOf] in E1, E2. cbv zeta in E1, E2. rewrite E1, E2.
    exact IH.
Qed.

Lemma identity_fields_constant_witness :
  reachable (processActions lethal_game ATTACK CHARGE).1
  /\ hp (player2 (processActions lethal_game ATTACK CHARGE).1) = 0
  /\ p_status (player2 (processActions lethal_game ATTACK CHARGE).1)
     = "active".
Proof.
  assert (reachable (processActions lethal_game ATTACK CHARGE).1) as Hr
    by (constructor; apply reachable_play; constructor).
  split; [exact Hr | split; [vm_compute; reflexivity |]].
  apply (identity_fields_constant _ Hr).
Defined.

Lemma reachable_hp_lower (s : Slot) (g : Game) :
  reachable g -> 100 - 25 * (round g - 1) <= hp (playerOf s g).
Proof.
  induction 1 as [gameId | g a1 a2 Hg IH]; [by destruct s |].
  destruct (reachable_player_inv s g Hg) as [[Hh _] _].
  pose proof (processActions_hp_bounds s g a1 a2 Hh) as B.
  rewrite processActions_round. lia.
Qed.

(** X11: in every game the engine can hold, after [n] resolved rounds
    (round counter [n + 1]) each player has at least 100 - 25 n HP, so no
    game is finished before four rounds have been resolved: a finished
    game has a round counter of at least 5. *)
Theorem no_early_end (g : Game) :
  reachable g ->
  (forall s : Slot, 100 - 25 * (round g - 1) <= hp (playerOf s g))
  /\ (gameStatus g = "finished" -> 5 <= round g).
Proof.
  intros Hg. split; [intros s; by apply reachable_hp_lower |].
  intros Hfin. destruct (reachable_status g Hg) as [Hs _].
  rewrite Hfin in Hs.
  pose proof (reachable_hp_lower Slot1 g Hg) as L1.
  pose proof (reachable_hp_lower Slot2 g Hg) as L2.
  cbn [playerOf] in L1, L2. revert Hs.
  destruct (Z.leb_spec (hp (player1 g)) 0),
           (Z.leb_spec (hp (player2 g)) 0); cbn [orb]; intros Hs;
    try done; lia.
Qed.

Lemma no_early_end_witness :
  reachable (processActions lethal_game ATTACK CHARGE).1
  /\ gameStatus (processActions lethal_game ATTACK CHARGE).1 = "finished"
  /\ 5 <= round (processActions lethal_game ATTACK CHARGE).1.
Proof.
  assert (reachable (processActions lethal_game ATTACK CHARGE).1) as Hr
    by (constructor; apply reachable_play; constructor).
  assert (gameStatus (processActions lethal_game ATTACK CHARGE).1
          = "finished") as Hf by (vm_compute; reflexivity).
  split; [exact Hr | split; [exact Hf |]].
  exact (proj2 (no_early_end _ Hr) Hf).
Defined.

(** ** Further properties of the routes *)

Lemma postActions_accepted (games : gmap string Game) (gameId : string)
    (body : ActionsBody) (game : Game) :
  games !! gameId = Some game ->
  gameStatus game = "active" ->
  validAction (player1Action body) ->
  validAction (player2Action body) ->
  let r := processActions game (player1Action body) (player2Action body) in
  postActions games gameId (Some body)
  = (<[gameId := r.1]> games,
     mkResponse 200 (Success (getGameState r.1) r.2)).
Proof.
  intros Hget Hact Hv1 Hv2.
  pose proof (postActions_success games gameId body game Hget Hact Hv1 Hv2)
    as H.
  cbv zeta. by destruct (processActions _ _ _) as [game' br], H.
Qed.

(** The route either leaves the store as it is and answers 404, 400 or
    500, or runs one round on an active stored game with the two valid
    actions of a parsed body. *)
Lemma postActions_cases (games : gmap string Game) (gameId : string)
    (body : option ActionsBody) :
  ((postActions games gameId body).1 = games
   /\ (res_status (postActions games gameId body).2 = 404
       /\ games !! gameId = None
       \/ res_status (postActions games gameId body).2 = 400
          /\ is_Some (games !! gameId)
          /\ ~ (exists game : Game,
                  games !! gameId = Some game
                  /\ gameStatus game = "active" /\ body = None)
       \/ res_status (postActions games gameId body).2 = 500
          /\ exists game : Game,
               games !! gameId = Some game
               /\ gameStatus game = "active" /\ body = None))
  \/ (exists (game : Game) (parsed : ActionsBody),
        body = Some parsed
        /\ games !! gameId = Some game
        /\ gameStatus game = "active"
        /\ validAction (player1Action parsed)
        /\ validAction (player2Action parsed)).
Proof.
  destruct (games !! gameId) as [game |] eqn:Hget.
  - destruct (decide (gameStatus game = "active")) as [Hact | Hact].
    + destruct body as [parsed |].
      * destruct (includes validActions (player1Action parsed)) eqn:V1;
          [destruct (includes validActions (player2Action parsed)) eqn:V2 |].
        -- right. by exists game, parsed.
        -- left.
           destruct (postActions_invalid games gameId parsed game Hget Hact)
             as [-> [-> | ->]];
             [right; unfold validAction; congruence | ..];
             (split; [done |]); right; left;
             (split; [done |]); (split; [by eexists |]);
             by intros (? & _ & _ & ?).
        -- left.
           destruct (postActions_invalid games gameId parsed game Hget Hact)
             as [-> [-> | ->]];
             [left; unfold validAction; congruence | ..];
             (split; [done |]); right; left;
             (split; [done |]); (split; [by eexists |]);
             by intros (? & _ & _ & ?).
      * left. rewrite (postActions_nobody games gameId game Hget Hact).
        split; [done |]. right; right. split; [done |]. by exists game.
    + left. rewrite (postActions_inactive games gameId body game Hget Hact).
      split; [done |]. right; left. split; [done |].
      split; [by eexists |]. intros (game' & [= <-] & Ha & _). done.
  - left. rewrite (postActions_unknown games gameId body Hget). eauto.
Qed.

(** X12: creating a game stores a new game (100 HP and 3 energy each,
    round 1, active, empty log) under the generated id, answers 200 with
    its view, leaves every other id of the store as it was, and a lookup
    of the new id through the get route returns the same answer. Whatever
    was stored under that id before, such as a game created in the same
    millisecond, is replaced. *)
Theorem create_registers_new_game (games : gmap string Game) (now : N) :
  let gameId := newGameId now in
  let games' := (postCreate games now).1 in
  let res := (postCreate games now).2 in
  games' !! gameId = Some (newGame gameId)
  /\ (forall k : string, k <> gameId -> games' !! k = games !! k)
  /\ res = mkGameResponse 200 (GameSuccess (getGameState (newGame gameId)))
  /\ getGame games' gameId = res.
Proof.
  cbv zeta. unfold postCreate, createNewGame, getGame. cbn [fst snd].
  rewrite lookup_insert_eq. repeat split.
  intros k Hk. by rewrite lookup_insert_ne.
Qed.

Lemma create_registers_new_game_witness :
  "game_2" <> newGameId 1
  /\ (postCreate sample_store 1).1 !! "game_2" = sample_store !! "game_2".
Proof.
  assert ("game_2" <> newGameId 1) as Hne by (vm_compute; discriminate).
  split; [exact Hne |].
  exact (proj1 (proj2 (create_registers_new_game sample_store 1))
           "game_2" Hne).
Defined.

Lemma newGameId_inj (n m : N) : newGameId n = newGameId m -> n = m.
Proof.
  unfold newGameId. intros H.
  apply (inj pretty). by simplify_eq/=.
Qed.

(** X13: ids generated at different clock readings are different, so a
    game created at one time is not disturbed by a creation at any other
    time: it is still stored, unchanged, under its id. *)
Theorem create_at_other_time_keeps (games : gmap string Game) (n m : N) :
  n <> m ->
  newGameId n <> newGameId m
  /\ (postCreate games m).1 !! newGameId n = games !! newGameId n
  /\ (postCreate (postCreate games n).1 m).1 !! newGameId n
     = Some (newGame (newGameId n)).
Proof.
  intros Hnm.
  assert (newGameId n <> newGameId m) as Hid
    by (intros H; by apply newGameId_inj in H).
  split; [exact Hid |].
  unfold postCreate, createNewGame. cbn [fst snd].
  rewrite !lookup_insert_ne by done. split; [done |].
  apply lookup_insert_eq.
Qed.

Lemma create_at_other_time_keeps_witness :
  1%N <> 2%N /\ newGameId 1 <> newGameId 2.
Proof.
  assert (1%N <> 2%N) as Hne by discriminate.
  split; [exact Hne |].
  exact (proj1 (create_at_other_time_keeps ∅ 1 2 Hne)).
Defined.

(** X14: the action route answers 200 exactly when the game is stored,
    its status is 'active', the body was parsed and both actions are
    valid; 404 exactly when the id is unknown; 500 exactly when the game
    is stored and active and the request has no parsed body; and 400 in
    every other case. Whenever the answer is not 200 the store is
    unchanged. *)
Theorem submit_status (games : gmap string Game) (gameId : string)
    (body : option ActionsBody) :
  let status := res_status (postActions games gameId body).2 in
  (status = 200
     <-> exists (game : Game) (parsed : ActionsBody),
           body = Some parsed
           /\ games !! gameId = Some game
           /\ gameStatus game = "active"
           /\ validAction (player1Action parsed)
           /\ validAction (player2Action parsed))
  /\ (status = 404 <-> games !! gameId = None)
  /\ (status = 500
       <-> exists game : Game,
             games !! gameId = Some game
             /\ gameStatus game = "active" /\ body = None)
  /\ (status = 200 \/ status = 400 \/ status = 404 \/ status = 500)
  /\ (status <> 200 -> (postActions games gameId body).1 = games).
Proof.
  cbv zeta.
  destruct (postActions_cases games gameId body)
    as [[Hsame [[Hst Hnone] | [(Hst & [game Hget] & Hno) | [Hst Hyes]]]]
        | (game & parsed & -> & Hget & Hact & Hv1 & Hv2)].
  - rewrite Hst, Hnone. repeat split; try done; auto.
    + intros (game & parsed & _ & ? & _). done.
    + intros (game & ? & _). done.
  - rewrite Hst. repeat split; try done; auto.
    + intros (game' & parsed & -> & Hg & Hact & Hv1 & Hv2).
      pose proof (postActions_accepted games gameId parsed game' Hg Hact
                    Hv1 Hv2) as E.
      cbv zeta in E. rewrite E in Hst. done.
    + intros Hn. by rewrite Hn in Hget.
  - rewrite Hst. destruct Hyes as (game & Hget & Hact & ->).
    repeat split; try done; auto.
    + intros (game' & parsed & ? & _). done.
    + intros Hn. by rewrite Hn in Hget.
    + intros _. by exists game.
  - pose proof (postActions_accepted games gameId parsed game Hget Hact Hv1
                  Hv2) as E.
    cbv zeta in E. rewrite E. cbn [snd res_status].
    repeat split; try done; auto.
    + intros _. by exists game, parsed.
    + intros Hn. by rewrite Hn in Hget.
    + intros (game' & _ & _ & ?). done.
Qed.

Lemma submit_status_witness :
  res_status (postActions sample_store "game_1" None).2 <> 200
  /\ (postActions sample_store "game_1" None).1 = sample_store
  /\ res_status (postActions sample_store "game_1"
                   (Some (mkActionsBody ATTACK JUndefined))).2 <> 200
  /\ (postActions sample_store "game_1"
        (Some (mkActionsBody ATTACK JUndefined))).1 = sample_store.
Proof.
  assert (res_status (postActions sample_store "game_1" None).2 <> 200)
    as Hn by (vm_compute; discriminate).
  assert (res_status (postActions sample_store "game_1"
                        (Some (mkActionsBody ATTACK JUndefined))).2 <> 200)
    as Hne by (vm_compute; discriminate).
  split; [exact Hn | split; [| split; [exact Hne |]]].
  - exact (proj2 (proj2 (proj2 (proj2
             (submit_status sample_store "game_1" None)))) Hn).
  - exact (proj2 (proj2 (proj2 (proj2
             (submit_status sample_store "game_1"
                (Some (mkActionsBody ATTACK JUndefined)))))) Hne).
Defined.

(** X15: a submission never creates or removes a game and never touches
    a game other than the one addressed: the set of stored ids is the
    same afterwards, and so is the game under every other id. *)
Theorem submit_frame (games : gmap string Game) (gameId : string)
    (body : option ActionsBody) :
  dom (postActions games gameId body).1 = dom games
  /\ forall k : string,
       k <> gameId -> (postActions games gameId body).1 !! k = games !! k.
Proof.
  destruct (postActions_cases games gameId body)
    as [[-> _] | (game & parsed & -> & Hget & Hact & Hv1 & Hv2)]; [done |].
  pose proof (postActions_accepted games gameId parsed game Hget Hact Hv1
                Hv2) as E.
  cbv zeta in E. rewrite E. cbn [fst]. split.
  - by apply dom_insert_lookup_L.
  - intros k Hk. by rewrite lookup_insert_ne.
Qed.

Lemma submit_frame_witness :
  "game_2" <> "game_1"
  /\ (postActions sample_store "game_1"
        (Some (mkActionsBody ATTACK DEFEND))).1 !! "game_2"
     = sample_store !! "game_2".
Proof.
  assert ("game_2" <> "game_1") as Hne by discriminate.
  split; [exact Hne |].
  exact (proj2 (submit_frame sample_store "game_1"
                  (Some (mkActionsBody ATTACK DEFEND))) "game_2" Hne).
Defined.

(** X16: an accepted submission (stored active game, two valid actions)
    stores the game after one round of the engine on exactly these two
    actions; the view in the answer is the view of the stored game, a
    lookup through the get route right after returns that same view, its
    round counter is one more than before, and the newest entry of its
    recent log holds the battle result sent in the answer. *)
Theorem submit_accepted (games : gmap string Game) (gameId : string)
    (body : ActionsBody) (game : Game) :
  games !! gameId = Some game ->
  gameStatus game = "active" ->
  validAction (player1Action body) ->
  validAction (player2Action body) ->
  let games' := (postActions games gameId (Some body)).1 in
  let res := (postActions games gameId (Some body)).2 in
  let game' :=
    (processActions game (player1Action body) (player2Action body)).1 in
  let battleResult :=
    (processActions game (player1Action body) (player2Action body)).2 in
  games' !! gameId = Some game'
  /\ res = mkResponse 200 (Success (getGameState game') battleResult)
  /\ getGame games' gameId
     = mkGameResponse 200 (GameSuccess (getGameState game'))
  /\ v_round (getGameState game') = round game + 1
  /\ le_results <$> last (recentBattleLog (getGameState game'))
     = Some battleResult.
Proof.
  intros Hget Hact Hv1 Hv2.
  pose proof (postActions_accepted games gameId body game Hget Hact Hv1 Hv2)
    as E.
  cbv zeta in E. cbv zeta. rewrite E. cbn [fst snd].
  unfold getGame. rewrite lookup_insert_eq.
  repeat split.
  unfold getGameState, slice_last. cbn [recentBattleLog].
  rewrite processActions_battleLog, length_app. cbn [length].
  rewrite drop_app_le by lia. by rewrite last_snoc.
Qed.

Lemma submit_accepted_witness :
  sample_store !! "game_1" = Some (newGame "game_1")
  /\ gameStatus (newGame "game_1") = "active"
  /\ validAction (player1Action (mkActionsBody ATTACK DEFEND))
  /\ validAction (player2Action (mkActionsBody ATTACK DEFEND))
  /\ (postActions sample_store "game_1"
        (Some (mkActionsBody ATTACK DEFEND))).1 !! "game_1"
     = Some (processActions (newGame "game_1") ATTACK DEFEND).1.
Proof.
  assert (sample_store !! "game_1" = Some (newGame "game_1")) as H1
    by (vm_compute; reflexivity).
  split; [exact H1 | split; [reflexivity | split; [reflexivity |
    split; [reflexivity |]]]].
  exact (proj1 (submit_accepted sample_store "game_1"
                  (mkActionsBody ATTACK DEFEND) (newGame "game_1") H1
                  eq_refl eq_refl eq_refl)).
Defined.

Lemma played_reachable (g : Game) : played g -> reachable g.
Proof. induction 1; by constructor. Qed.

Lemma store_reachable_inv (games : gmap string Game) :
  store_reachable games ->
  forall (k : string) (g : Game),
    games !! k = Some g ->
    g_id g = k /\ (exists now : N, k = newGameId now) /\ played g.
Proof.
  induction 1 as [| m now Hm IH | m gameId body Hm IH]; intros k g Hk.
  - by rewrite lookup_empty in Hk.
  - unfold postCreate, createNewGame in Hk. cbn [fst] in Hk.
    destruct (decide (k = newGameId now)) as [-> | Hne].
    + rewrite lookup_insert_eq in Hk. injection Hk as <-.
      split; [done | split; [by exists now | constructor]].
    + rewrite lookup_insert_ne in Hk by done. by apply IH.
  - destruct (postActions_cases m gameId body)
      as [[E _] | (game & parsed & -> & Hget & Hact & Hv1 & Hv2)].
    + rewrite E in Hk. by apply IH.
    + pose proof (postActions_accepted m gameId parsed game Hget Hact Hv1
                    Hv2) as E.
      cbv zeta in E. rewrite E in Hk. cbn [fst] in Hk.
      destruct (decide (k = gameId)) as [-> | Hne].
      * rewrite lookup_insert_eq in Hk. injection Hk as <-.
        destruct (IH gameId game Hget) as (Hid & Hnow & Hpl).
        split; [exact Hid | split; [exact Hnow | by constructor]].
      * rewrite lookup_insert_ne in Hk by done. by apply IH.
Qed.

(** X17: every game in a store the server can hold is stored under its
    own id, that id was generated by the create route, and the game was
    produced by the routes alone: a new game followed by rounds that were
    each submitted with two valid actions while the game was active. *)
Theorem stored_games_wellformed (games : gmap string Game) :
  store_reachable games ->
  forall (k : string) (g : Game),
    games !! k = Some g ->
    g_id g = k /\ (exists now : N, k = newGameId now)
    /\ played g /\ reachable g.
Proof.
  intros Hs k g Hk.
  destruct (store_reachable_inv games Hs k g Hk) as (H1 & H2 & H3).
  repeat split; try done. by apply played_reachable.
Qed.

Lemma stored_games_wellformed_witness :
  store_reachable (postCreate ∅ 1).1
  /\ (postCreate ∅ 1).1 !! "game_1" = Some (newGame "game_1")
  /\ g_id (newGame "game_1") = "game_1".
Proof.
  assert (store_reachable (postCreate ∅ 1).1) as Hs
    by (constructor; constructor).
  assert ((postCreate ∅ 1).1 !! "game_1" = Some (newGame "game_1")) as Hk
    by (vm_compute; reflexivity).
  split; [exact Hs | split; [exact Hk |]].
  exact (proj1 (stored_games_wellformed _ Hs "game_1" _ Hk)).
Defined.

Lemma played_log_valid (g : Game) :
  played g ->
  Forall (fun e => validAction (le_actions e).1
                   /\ validAction (le_actions e).2) (battleLog g).
Proof.
  induction 1 as [gameId | g a1 a2 Hg IH Hact Hv1 Hv2]; [constructor |].
  rewrite processActions_battleLog. apply Forall_app. split; [exact IH |].
  by apply Forall_singleton.
Qed.

Lemma played_active_log_positive (g : Game) :
  played g ->
  gameStatus g = "active" ->
  Forall (fun e => 0 < (le_finalHp e).1 /\ 0 < (le_finalHp e).2)
         (battleLog g).
Proof.
  induction 1 as [gameId | g a1 a2 Hg IH Hact Hv1 Hv2]; [constructor |].
  intros Hact'. rewrite processActions_battleLog.
  apply Forall_app. split; [by apply IH |].
  apply Forall_singleton. cbn [le_finalHp fst snd].
  pose proof (processActions_status g a1 a2) as Hs. cbv zeta in Hs.
  rewrite Hs in Hact'. revert Hact'.
  destruct (Z.leb_spec (hp (player1 (processActions g a1 a2).1)) 0),
           (Z.leb_spec (hp (player2 (processActions g a1 a2).1)) 0);
    cbn [orb]; intros Hact'; try done.
Qed.

(** X18: in a game produced by the routes, every log entry records two
    valid actions, and every entry but the last records both players
    above 0 HP: a game ends, if at all, in the round of its last entry.
    While the game is active this holds of the last entry as well. *)
Theorem played_log_entries (g : Game) :
  played g ->
  (forall e : LogEntry,
     e ∈ battleLog g ->
     validAction (le_actions e).1 /\ validAction (le_actions e).2)
  /\ (forall (i : nat) (e : LogEntry),
        battleLog g !! i = Some e ->
        (S i < length (battleLog g))%nat ->
        0 < (le_finalHp e).1 /\ 0 < (le_finalHp e).2)
  /\ (gameStatus g = "active" ->
      forall e : LogEntry,
        e ∈ battleLog g -> 0 < (le_finalHp e).1 /\ 0 < (le_finalHp e).2).
Proof.
  intros Hg. split; [| split].
  - by apply Forall_forall, played_log_valid.
  - destruct Hg as [gameId | g a1 a2 Hg Hact Hv1 Hv2];
      [intros i e Hi; by destruct i |].
    pose proof (played_active_log_positive g Hg Hact) as Hpos.
    rewrite processActions_battleLog, length_app. cbn [length].
    intros i e Hi Hlt.
    rewrite lookup_app_l in Hi by lia.
    by apply (proj1 (Forall_lookup _ _) Hpos i e).
  - intros Hact. by apply Forall_forall, played_active_log_positive.
Qed.

Lemma played_log_entries_witness :
  played (processActions (newGame "game_1") ATTACK DEFEND).1
  /\ Forall (fun e => validAction (le_actions e).1
                      /\ validAction (le_actions e).2)
            (battleLog (processActions (newGame "game_1") ATTACK DEFEND).1).
Proof.
  assert (played (processActions (newGame "game_1") ATTACK DEFEND).1) as Hp
    by (apply played_round; [constructor | reflexivity ..]).
  split; [exact Hp |].
  apply Forall_forall. exact (proj1 (played_log_entries _ Hp)).
Defined.

(** X19: the [recentBattleLog] of a view is the tail of the game's log:
    the log ends with it, it has three entries, or all of them when the
    log has fewer, and its newest entry is the newest entry of the log. *)
Theorem recent_log_is_tail (g : Game) :
  let recent := recentBattleLog (getGameState g) in
  recent `suffix_of` battleLog g
  /\ length recent = Nat.min 3 (length (battleLog g))
  /\ last recent = last (battleLog g).
Proof.
  cbv zeta. unfold getGameState, slice_last. cbn [recentBattleLog].
  split; [apply suffix_drop | split; [rewrite length_drop; lia |]].
  rewrite !last_lookup, lookup_drop, length_drop.
  destruct (battleLog g) as [| e l]; [done |].
  f_equal. cbn [length]. lia.
Qed.

(** X20: the list of the games route has one summary per stored game:
    as many elements as the store has games, the summary (id, round,
    status, winner) of every stored game among them, and nothing else. *)
Theorem getGames_elements (games : gmap string Game) :
  length (getGames games) = size games
  /\ (forall (k : string) (g : Game),
        games !! k = Some g -> summaryOf g ∈ getGames games)
  /\ (forall sm : GameSummary,
        sm ∈ getGames games ->
        exists (k : string) (g : Game),
          games !! k = Some g /\ sm = summaryOf g).
Proof.
  unfold getGames. split; [| split].
  - by rewrite length_fmap, length_map_to_list.
  - intros k g Hk. apply list_elem_of_fmap. exists (k, g).
    split; [done |]. by apply elem_of_map_to_list.
  - intros sm [[k g] [-> Hkg]]%list_elem_of_fmap.
    exists k, g. split; [by apply elem_of_map_to_list | done].
Qed.

Lemma getGames_elements_witness :
  sample_store !! "game_1" = Some (newGame "game_1")
  /\ summaryOf (newGame "game_1") ∈ getGames sample_store.
Proof.
  assert (sample_store !! "game_1" = Some (newGame "game_1")) as H1
    by (vm_compute; reflexivity).
  split; [exact H1 |].
  exact (proj1 (proj2 (getGames_elements sample_store)) "game_1" _ H1).
Defined.

(** X21: in a store the server can hold, the summaries of the games route
    carry pairwise different ids, and each summary is that of the game
    stored under its id. *)
Theorem getGames_ids (games : gmap string Game) :
  store_reachable games ->
  NoDup (s_id <$> getGames games)
  /\ forall sm : GameSummary,
       sm ∈ getGames games ->
       exists g : Game, games !! s_id sm = Some g /\ sm = summaryOf g.
Proof.
  intros Hs.
  assert (forall (k : string) (g : Game),
            games !! k = Some g -> g_id g = k) as Hid.
  { intros k g Hk. by destruct (store_reachable_inv games Hs k g Hk). }
  split.
  - assert (s_id <$> getGames games = (map_to_list games).*1) as ->.
    { unfold getGames. rewrite <- list_fmap_compose.
      apply Forall_fmap_ext, Forall_forall.
      intros [k g] Hkg%elem_of_map_to_list. cbn. by apply Hid. }
    apply NoDup_fst_map_to_list.
  - unfold getGames.
    intros sm [[k g] [-> Hkg%elem_of_map_to_list]]%list_elem_of_fmap.
    exists g. cbn. by rewrite (Hid k g Hkg).
Qed.

Lemma getGames_ids_witness :
  store_reachable (postCreate (postCreate ∅ 1).1 2).1
  /\ NoDup (s_id <$> getGames (postCreate (postCreate ∅ 1).1 2).1).
Proof.
  assert (store_reachable (postCreate (postCreate ∅ 1).1 2).1) as Hs
    by (constructor; constructor; constructor).
  split; [exact Hs |].
  exact (proj1 (getGames_ids _ Hs)).
Defined.

(** X22: of the two answers to bad input in a parsed body, on a stored
    active game, 'Both player actions are required' is sent when some
    action is falsy (a key absent from the body, null, false, 0 or the
    empty string), and 'Invalid action. Must be: attack, defend, or
    charge' when both are truthy and some action is not in the enum. *)
Theorem invalid_input_message (games : gmap string Game) (gameId : string)
    (body : ActionsBody) (game : Game) :
  games !! gameId = Some game ->
  gameStatus game = "active" ->
  let a1 := player1Action body in
  let a2 := player2Action body in
  let res := (postActions games gameId (Some body)).2 in
  (truthy a1 = false \/ truthy a2 = false ->
     res = mkResponse 400
             (Failure "Both player actions are required" (Some (a1, a2))))
  /\ (truthy a1 = true -> truthy a2 = true ->
      ~ validAction a1 \/ ~ validAction a2 ->
      res = mkResponse 400
              (Failure "Invalid action. Must be: attack, defend, or charge"
                       (Some (a1, a2)))).
Proof.
  intros Hget Hact. cbv zeta. unfold postActions, actionsTry.
  rewrite Hget, Hact.
  change (String.eqb "active" "active") with true. cbn [negb].
  split.
  - intros [-> | ->]; cbn [negb orb]; [done | by rewrite orb_true_r].
  - intros -> -> Hinv. cbn [negb orb]. unfold validAction in Hinv.
    destruct (includes validActions (player1Action body)),
             (includes validActions (player2Action body));
      cbn [negb orb]; try done.
    by destruct Hinv as [H | H]; destruct H.
Qed.

Lemma invalid_input_message_witness :
  sample_store !! "game_1" = Some (newGame "game_1")
  /\ gameStatus (newGame "game_1") = "active"
  /\ truthy (player2Action (mkActionsBody ATTACK (JStr ""))) = false
  /\ (postActions sample_store "game_1"
        (Some (mkActionsBody ATTACK (JStr "")))).2
     = mkResponse 400
         (Failure "Both player actions are required"
                  (Some (ATTACK, JStr ""))).
Proof.
  assert (sample_store !! "game_1" = Some (newGame "game_1")) as H1
    by (vm_compute; reflexivity).
  split; [exact H1 | split; [reflexivity | split; [reflexivity |]]].
  exact (proj1 (invalid_input_message sample_store "game_1"
                  (mkActionsBody ATTACK (JStr "")) (newGame "game_1")
                  H1 eq_refl) (or_intror eq_refl)).
Defined.

Lemma roundFor_player (s : Slot) (g : Game) (a b : JsValue) :
  reachable g ->
  reachable (roundFor s g a b).1
  /\ energy (playerOf s (roundFor s g a b).1)
     = Z.min (maxEnergy (playerOf s g))
             (Z.max 0 (energy (playerOf s g) + energyDelta (playerOf s g) a))
  /\ charged (playerOf s (roundFor s g a b).1) = chargedAfter (playerOf s g) a
  /\ damage (resultOf (opponent s) (roundFor s g a b).2)
     = (if isDefend b
        then damageDealt (playerOf s g) a `div` 2
        else damageDealt (playerOf s g) a).
Proof.
  intros Hg. destruct s; cbn [roundFor]; (split; [by constructor |]).
  - pose proof (processActions_energy Slot1 g a b) as He.
    pose proof (processActions_charged Slot1 g a b) as Hc.
    pose proof (processActions_result Slot2 g a b) as Hr.
    cbv zeta in Hr. cbn [playerOf actionOf opponent] in *.
    rewrite He, Hc. cbn [resultOf]. cbn [resultOf] in Hr. rewrite Hr.
    cbn [delete_defending damage]. by rewrite defenseReduction_damage.
  - pose proof (processActions_energy Slot2 g b a) as He.
    pose proof (processActions_charged Slot2 g b a) as Hc.
    pose proof (processActions_result Slot1 g b a) as Hr.
    cbv zeta in Hr. cbn [playerOf actionOf opponent] in *.
    rewrite He, Hc. cbn [resultOf]. cbn [resultOf] in Hr. rewrite Hr.
    cbn [delete_defending damage]. by rewrite defenseReduction_damage.
Qed.

(** X23: charge, then attack. In every game the engine can hold, a
    player with at least 3 energy who charges in one round and attacks in
    the next deals 25 damage with that attack, 12 if the opponent then
    defends, whatever the opponent does in the two rounds; the player
    ends 3 energy lower and no longer charged. *)
Theorem charge_then_attack (s : Slot) (g : Game) (b1 b2 : JsValue) :
  reachable g ->
  3 <= energy (playerOf s g) ->
  let g1 := (roundFor s g CHARGE b1).1 in
  let r2 := roundFor s g1 ATTACK b2 in
  damage (resultOf (opponent s) r2.2) = (if isDefend b2 then 12 else 25)
  /\ energy (playerOf s r2.1) = energy (playerOf s g) - 3
  /\ charged (playerOf s r2.1) = false.
Proof.
  intros Hg He g1 r2. subst r2.
  destruct (reachable_player_inv s g Hg) as [_ [_ Hmax]].
  destruct (roundFor_player s g CHARGE b1 Hg) as (Hg1 & E1 & C1 & _).
  fold g1 in Hg1, E1, C1.
  assert (maxEnergy (playerOf s g1) = maxEnergy (playerOf s g)) as Hm
    by (subst g1; destruct s; cbn [roundFor]; apply processActions_max).
  unfold energyDelta, chargedAfter in E1, C1. cbn [strictEq CHARGE] in E1, C1.
  change (String.eqb "charge" "attack") with false in E1, C1.
  change (String.eqb "charge" "defend") with false in E1, C1.
  change (String.eqb "charge" "charge") with true in E1, C1.
  cbv iota in E1, C1. rewrite geb_ge in E1, C1 by lia.
  destruct (roundFor_player s g1 ATTACK b2 Hg1) as (_ & E2 & C2 & D2).
  rewrite E2, C2, D2, Hm.
  unfold energyDelta, chargedAfter, damageDealt. cbn [strictEq ATTACK].
  change (String.eqb "attack" "attack") with true. cbn [andb].
  rewrite geb_ge by lia. rewrite C1.
  split; [by destruct (isDefend b2) | split; [lia | done]].
Qed.

Lemma charge_then_attack_witness :
  reachable (newGame "game_1")
  /\ 3 <= energy (playerOf Slot1 (newGame "game_1"))
  /\ energy (playerOf Slot1
       (roundFor Slot1 (roundFor Slot1 (newGame "game_1") CHARGE DEFEND).1
                 ATTACK DEFEND).1)
     = energy (playerOf Slot1 (newGame "game_1")) - 3.
Proof.
  assert (3 <= energy (playerOf Slot1 (newGame "game_1"))) as He
    by discriminate.
  split; [constructor | split; [exact He |]].
  exact (proj1 (proj2 (charge_then_attack Slot1 (newGame "game_1")
                         DEFEND DEFEND (reachable_new "game_1") He))).
Defined.
